(** * KStars / Ekos: polar-axis geometry and rotator angle conventions

    A shallow embedding of

    - [kstars/ekos/align/poleaxis.cpp]       (module [PoleAxis]) and
    - [kstars/ekos/auxiliary/rotatorutils.cpp] (module [RotatorUtils]),

    followed by the properties of these functions.

    Numbers.  The C++ code computes with [double].  Here a [double] is a
    real number ([R]) and [+], [-], [*], [/], [sqrt], [sin], [cos], [asin]
    and [atan2] are the exact operations: rounding of double arithmetic,
    overflow, NaN and infinities are outside the model.  The one place
    where the source reduces precision on purpose, the
    [static_cast<float>] of [PoleAxis::dirCos], is kept visible as a
    rounding function [to_float] that the definitions take as an argument. *)

From Stdlib Require Import Reals Lra Lia ZArith Bool.
From Stdlib Require String.
From Stdlib Require List.

Open Scope R_scope.

(** ** Comparisons of doubles

    [a > b] and [a == b] of the source, as booleans. *)

Definition Rgtb (a b : R) : bool := if Rlt_dec b a then true else false.

Definition Reqb (a b : R) : bool := if Req_dec_T a b then true else false.

(** ** KSUtils: range normalisation *)

Module KSUtils.

(** Modelled from the spec: [KSUtils::range360], whose definition
    (ksutils.h) is not among the sources.  The spec only says that the
    argument is "range-normalized into [0, 360)": the value is shifted by
    the whole number of turns that brings it there. *)
Definition range360 (r : R) : R := r - 360 * IZR (Int_part (r / 360)).

(** Modelled from the spec: [KSUtils::rangePA], whose definition
    (ksutils.h) is not among the sources.  The spec only says that the
    argument is "range-normalized into (-180, 180]": the value is shifted
    by the whole number of turns that brings it there. *)
Definition rangePA (x : R) : R := x + 360 * IZR (Int_part ((180 - x) / 360)).

End KSUtils.

(** ** ISD::Mount, as far as RotatorUtils looks at it *)

Module Mount.

(** Modelled from the spec: the enumeration [ISD::Mount::PierSide]
    (declared in a header that is not among the sources), "an enumerated
    set {EAST, WEST, UNKNOWN}". *)
Inductive PierSide : Set :=
| PIER_UNKNOWN
| PIER_WEST
| PIER_EAST.

(** [==] on the enumeration. *)
Definition PierSide_eqb (a b : PierSide) : bool :=
  match a, b with
  | PIER_UNKNOWN, PIER_UNKNOWN => true
  | PIER_WEST, PIER_WEST => true
  | PIER_EAST, PIER_EAST => true
  | _, _ => false
  end.

(** Modelled from the spec: the device class [ISD::Mount] (not among the
    sources), "a mount-status collaborator providing pier-side values";
    only its [pierSide()] query is used. *)
Record Mount : Set := mkMount { pierSide : PierSide }.

End Mount.

(** ** RotatorUtils *)

Module RotatorUtils.

Import Mount.

(** The members of the [RotatorUtils] singleton that the methods read or
    write, together with the two collaborators they talk to: the persisted
    option [Options::pAOffset] and the lookup
    [OpticalTrainManager::getMount]. *)
Record State : Type := mkState {
  m_Mount : option Mount;            (* ISD::Mount *m_Mount, None = nullptr *)
  m_CalPierside : PierSide;
  m_ImgPierside : PierSide;
  m_Offset : R;
  m_flippedMount : bool;
  Options_pAOffset : R;              (* Options::pAOffset() / setPAOffset() *)
  OpticalTrainManager_getMount : String.string -> option Mount
}.

Definition set_m_Mount (v : option Mount) (s : State) : State :=
  mkState v (m_CalPierside s) (m_ImgPierside s) (m_Offset s)
          (m_flippedMount s) (Options_pAOffset s) (OpticalTrainManager_getMount s).

Definition set_m_ImgPierside (v : PierSide) (s : State) : State :=
  mkState (m_Mount s) (m_CalPierside s) v (m_Offset s)
          (m_flippedMount s) (Options_pAOffset s) (OpticalTrainManager_getMount s).

Definition set_m_Offset (v : R) (s : State) : State :=
  mkState (m_Mount s) (m_CalPierside s) (m_ImgPierside s) v
          (m_flippedMount s) (Options_pAOffset s) (OpticalTrainManager_getMount s).

Definition set_m_flippedMount (v : bool) (s : State) : State :=
  mkState (m_Mount s) (m_CalPierside s) (m_ImgPierside s) (m_Offset s)
          v (Options_pAOffset s) (OpticalTrainManager_getMount s).

Definition set_Options_pAOffset (v : R) (s : State) : State :=
  mkState (m_Mount s) (m_CalPierside s) (m_ImgPierside s) (m_Offset s)
          (m_flippedMount s) v (OpticalTrainManager_getMount s).

(** *** Methods as state transformers

    A method is a function from the state before the call to its result
    and the state after it. *)

Definition M (A : Type) : Type := State -> A * State.

Definition ret {A : Type} (a : A) : M A := fun s => (a, s).

Definition bind {A B : Type} (m : M A) (k : A -> M B) : M B :=
  fun s => let (a, s') := m s in k a s'.

Definition gets {A : Type} (f : State -> A) : M A := fun s => (f s, s).

Definition modify (f : State -> State) : M unit := fun s => (tt, f s).

(** The result of a call and the state it leaves. *)
Definition evalM {A : Type} (m : M A) (s : State) : A := fst (m s).

Definition execM {A : Type} (m : M A) (s : State) : State := snd (m s).

Declare Scope rotator_scope.
Delimit Scope rotator_scope with rot.

Notation "x <- m ;; k" := (bind m (fun x => k))
  (at level 61, m at next level, right associativity) : rotator_scope.
Notation "m ;; k" := (bind m (fun _ => k))
  (at level 61, right associativity) : rotator_scope.

Open Scope rotator_scope.

(** [RotatorUtils::initRotatorUtils].  When a mount is found the source
    connects [pierSideChanged] (below) to the mount's signal of the same
    name; the signal dispatch itself belongs to the toolkit. *)
Definition initRotatorUtils (train : String.string) : M unit :=
  off <- gets Options_pAOffset ;;
  modify (set_m_Offset off) ;;
  mount <- gets (fun s => OpticalTrainManager_getMount s train) ;;
  modify (set_m_Mount mount).

(** The slot connected in [initRotatorUtils]: what runs when the mount
    reports a new pier side.  Its result is the side passed on with
    [emit changedPierside(Side)]. *)
Definition pierSideChanged (Side : PierSide) : M PierSide :=
  cal <- gets m_CalPierside ;;
  modify (set_m_flippedMount (negb (PierSide_eqb Side cal))) ;;
  ret Side.

(** [RotatorUtils::calcRotatorAngle] *)
Definition calcRotatorAngle (PositionAngle : R) : M R :=
  flipped <- gets m_flippedMount ;;
  let PositionAngle := if flipped then PositionAngle + 180 else PositionAngle in
  off <- gets m_Offset ;;
  ret (KSUtils.range360 (PositionAngle - off)).

(** [RotatorUtils::calcCameraAngle] *)
Definition calcCameraAngle (RotatorAngle : R) (flippedImage : bool) : M R :=
  off <- gets m_Offset ;;
  let PositionAngle :=
    if Rgtb RotatorAngle 180
    then (RotatorAngle - 360) + off
    else RotatorAngle + off in
  flipped <- gets m_flippedMount ;;
  let PositionAngle :=
    if negb (eqb (negb flipped) (negb flippedImage)) (* XOR *)
    then (if Rgtb PositionAngle 0
          then PositionAngle - 180
          else PositionAngle + 180)
    else PositionAngle in
  ret (KSUtils.rangePA PositionAngle).

(** [RotatorUtils::calcOffsetAngle] *)
Definition calcOffsetAngle (RotatorAngle PositionAngle : R) : M R :=
  let OffsetAngle :=
    if Rgtb RotatorAngle 180
    then PositionAngle - (RotatorAngle - 360)
    else PositionAngle - RotatorAngle in
  flipped <- gets m_flippedMount ;;
  let OffsetAngle := if flipped then OffsetAngle - 180 else OffsetAngle in
  ret (KSUtils.rangePA OffsetAngle).

(** [RotatorUtils::updateOffset] *)
Definition updateOffset (Angle : R) : M unit :=
  modify (set_m_Offset Angle) ;;
  modify (set_Options_pAOffset Angle).

(** [RotatorUtils::getMountPierside]; [None] stands for the dereference
    of a null [m_Mount]. *)
Definition getMountPierside : M (option PierSide) :=
  mount <- gets m_Mount ;;
  ret (option_map pierSide mount).

(** [RotatorUtils::setImagePierside] *)
Definition setImagePierside (ImgPierside : PierSide) : M unit :=
  modify (set_m_ImgPierside ImgPierside).

(** [RotatorUtils::checkImageFlip] *)
Definition checkImageFlip : M bool :=
  let flipped := false in
  img <- gets m_ImgPierside ;;
  if negb (PierSide_eqb img PIER_UNKNOWN)
  then
    mountFlipped <- gets m_flippedMount ;;
    cal <- gets m_CalPierside ;;
    if negb (eqb (negb mountFlipped) (PierSide_eqb img cal)) (* XOR *)
    then ret true
    else ret flipped
  else ret flipped.

(** [RotatorUtils::DiffPA] *)
Definition DiffPA (diff : R) : M R :=
  if Rgtb diff 180 then ret (360 - diff) else ret diff.

(** *** The interface as a datatype

    Every way the state can be acted on: a call of one of the methods
    above, or the delivery of the mount's pier-side notification. *)
Inductive Call : Type :=
| Call_initRotatorUtils (train : String.string)
| Call_calcRotatorAngle (PositionAngle : R)
| Call_calcCameraAngle (RotatorAngle : R) (flippedImage : bool)
| Call_calcOffsetAngle (RotatorAngle PositionAngle : R)
| Call_updateOffset (Angle : R)
| Call_getMountPierside
| Call_setImagePierside (ImgPierside : PierSide)
| Call_checkImageFlip
| Call_DiffPA (diff : R)
| Notify_pierSideChanged (Side : PierSide).

(** The state a call leaves. *)
Definition step (c : Call) (s : State) : State :=
  match c with
  | Call_initRotatorUtils train => execM (initRotatorUtils train) s
  | Call_calcRotatorAngle pa => execM (calcRotatorAngle pa) s
  | Call_calcCameraAngle ra fi => execM (calcCameraAngle ra fi) s
  | Call_calcOffsetAngle ra pa => execM (calcOffsetAngle ra pa) s
  | Call_updateOffset a => execM (updateOffset a) s
  | Call_getMountPierside => execM getMountPierside s
  | Call_setImagePierside p => execM (setImagePierside p) s
  | Call_checkImageFlip => execM checkImageFlip s
  | Call_DiffPA d => execM (DiffPA d) s
  | Notify_pierSideChanged side => execM (pierSideChanged side) s
  end.

End RotatorUtils.

(** ** The C math library, on reals *)

Module Cmath.

(** [std::atan2(y, x)]: the angle of the point [(x, y)], in (-PI, PI],
    with the library's value 0 at the origin.  ([std::asin] and [sqrt] are
    the Standard Library's [asin] and [sqrt].) *)
Definition atan2 (y x : R) : R :=
  if Rlt_dec 0 x then atan (y / x)
  else if Rlt_dec x 0 then
         (if Rle_dec 0 y then atan (y / x) + PI else atan (y / x) - PI)
  else if Rlt_dec 0 y then PI / 2
  else if Rlt_dec y 0 then - (PI / 2)
  else 0.

End Cmath.

(** ** dms and SkyPoint, as far as PoleAxis looks at them *)

Module Dms.

(** Modelled from the spec: the angle class [dms] (auxiliary/dms.h is not
    among the sources).  An angle is held in degrees; [setRadians] and the
    trigonometric queries convert with the factor PI / 180 ("converted to
    the implementation's angle unit"). *)
Record dms : Type := mkdms { Degrees : R }.

Definition DegToRad : R := PI / 180.

Definition radians (a : dms) : R := Degrees a * DegToRad.

Definition setRadians (Rad : R) : dms := mkdms (Rad / DegToRad).

Definition cos (a : dms) : R := Rtrigo_def.cos (radians a).

Definition sin (a : dms) : R := Rtrigo_def.sin (radians a).

End Dms.

Module SkyPoint.

(** Modelled from the spec: a sky position (skyobjects/skypoint.h is not
    among the sources) is the "AnglePair" of its two angles; [ra] is the
    primary and [dec] the secondary one. *)
Record SkyPoint : Type := mkSkyPoint { ra : Dms.dms; dec : Dms.dms }.

End SkyPoint.

(** ** PoleAxis *)

Module PoleAxis.

Import Dms(dms).
Import SkyPoint(SkyPoint, mkSkyPoint, ra, dec).

(** Modelled from the spec: the class [PoleAxis::V3] (poleaxis.h is not
    among the sources): "three floating-point components (x, y, z)", read
    with [x()], [y()] and [z()]; the constructor without arguments gives
    "the zero vector". *)
Record V3 : Type := mkV3 { X : R; Y : R; Z : R }.

Definition V3_default : V3 := mkV3 0 0 0.

(** [PoleAxis::V3::normal] *)
Definition normal (v1 v2 v3 : V3) : V3 :=
  let d21 := mkV3 (X v2 - X v1) (Y v2 - Y v1) (Z v2 - Z v1) in
  let d31 := mkV3 (X v3 - X v2) (Y v3 - Y v2) (Z v3 - Z v2) in
  let cross := mkV3 (Y d21 * Z d31 - Z d21 * Y d31)
                    (Z d21 * X d31 - X d21 * Z d31)
                    (X d21 * Y d31 - Y d21 * X d31) in
  let lenSq := X cross * X cross + Y cross * Y cross + Z cross * Z cross in
  if Reqb lenSq 0 then V3_default
  else
    let len := sqrt lenSq in
    mkV3 (X cross / len) (Y cross / len) (Z cross / len).

(** [PoleAxis::V3::length] *)
Definition length (v : V3) : R := sqrt (X v * X v + Y v * Y v + Z v * Z v).

Section Precision.

(** [static_cast<float>]: the rounding of a double to single precision. *)
Variable to_float : R -> R.

(** [PoleAxis::dirCos(const dms primary, const dms secondary)] *)
Definition dirCos (primary secondary : dms) : V3 :=
  mkV3 (to_float (Dms.cos secondary * Dms.cos primary))
       (to_float (Dms.cos secondary * Dms.sin primary))
       (to_float (Dms.sin secondary)).

(** [PoleAxis::dirCos(const SkyPoint sp)] *)
Definition dirCos_SkyPoint (sp : SkyPoint) : V3 := dirCos (ra sp) (dec sp).

(** [PoleAxis::primary] *)
Definition primary (dirCos : V3) : dms :=
  Dms.setRadians (Cmath.atan2 (Y dirCos) (X dirCos)).

(** [PoleAxis::secondary] *)
Definition secondary (dirCos : V3) : dms :=
  Dms.setRadians (asin (Z dirCos)).


(** [PoleAxis::poleAxis].  The result is returned as [normal] computed it:
    the source keeps the reversal toward the north only as a comment. *)
Definition poleAxis (p1 p2 p3 : SkyPoint) : V3 :=
  let v1 := dirCos_SkyPoint p1 in
  let v2 := dirCos_SkyPoint p2 in
  let v3 := dirCos_SkyPoint p3 in
  let p := normal v1 v2 v3 in
  p.

End Precision.

(** *** Vector notions used to state the properties *)

Definition V3_sub (a b : V3) : V3 := mkV3 (X a - X b) (Y a - Y b) (Z a - Z b).

Definition V3_cross (a b : V3) : V3 :=
  mkV3 (Y a * Z b - Z a * Y b) (Z a * X b - X a * Z b) (X a * Y b - Y a * X b).

Definition V3_opp (a : V3) : V3 := mkV3 (- X a) (- Y a) (- Z a).

(** The squared length, as [length] and [normal] compute it. *)
Definition normSq (a : V3) : R := X a * X a + Y a * Y a + Z a * Z a.

(** Componentwise agreement within a tolerance. *)
Definition V3_close (eps : R) (a b : V3) : Prop :=
  Rabs (X a - X b) <= eps /\ Rabs (Y a - Y b) <= eps /\ Rabs (Z a - Z b) <= eps.

(** Three points are collinear when the cross product of [v2 - v1] and
    [v3 - v2] vanishes. *)
Definition collinear (v1 v2 v3 : V3) : Prop :=
  V3_cross (V3_sub v2 v1) (V3_sub v3 v2) = V3_default.

End PoleAxis.

(** ** Notions used to state the properties *)

(** Two reals are equal modulo 360 when they differ by whole turns. *)
Definition eqmod360 (a b : R) : Prop := exists k : Z, a = b + 360 * IZR k.

Section RotatorStatements.

Import Mount RotatorUtils.

(** The position angle of [calcCameraAngle] before its final
    normalisation, written as the specification words it: the circular
    angle folded into the signed range plus the offset, then the half turn
    when the mount's flip state differs from the image's. *)
Definition cameraAngle_unnormalised
    (s : State) (RotatorAngle : R) (flippedImage : bool) : R :=
  let base :=
    if Rgtb RotatorAngle 180
    then (RotatorAngle - 360) + m_Offset s
    else RotatorAngle + m_Offset s in
  if xorb (m_flippedMount s) flippedImage
  then (if Rgtb base 0 then base - 180 else base + 180)
  else base.

(** [imageFlipDetected] as the specification words it: the calibration
    pier side is known and [mountFlipped XOR (imagePierSide ==
    imagePierSideAtCalibration)]. *)
Definition imageFlipDetected_spec (s : State) (imagePierSide : PierSide) : bool :=
  negb (PierSide_eqb (m_CalPierside s) PIER_UNKNOWN)
  && xorb (m_flippedMount s) (PierSide_eqb imagePierSide (m_CalPierside s)).

(** [imageFlipDetected imagePierSide] on the code: the side is stored with
    [setImagePierside], then [checkImageFlip] is asked. *)
Definition imageFlipDetected (imagePierSide : PierSide) : M bool :=
  setImagePierside imagePierSide ;; checkImageFlip.

(** A state with no mount, calibrated on the west side, nothing stored. *)
Definition state0 : State :=
  mkState None PIER_WEST PIER_UNKNOWN 0 false 0 (fun _ => None).

End RotatorStatements.

(** ** Further vector notions used to state the properties *)

Section VectorNotions.

Import PoleAxis.

Definition V3_dot (a b : V3) : R := X a * X b + Y a * Y b + Z a * Z b.

Definition V3_add (a b : V3) : V3 := mkV3 (X a + X b) (Y a + Y b) (Z a + Z b).

Definition V3_scale (k : R) (a : V3) : V3 := mkV3 (k * X a) (k * Y a) (k * Z a).

End VectorNotions.

(** ** ToggleAction *)

Module ToggleAction.

(** The toolkit's icon class [QIcon] (Qt), of which the source uses the
    default constructor (the null icon) and [isNull()]; an icon that is
    not null is told apart by a number. *)
Inductive QIcon : Set :=
| NullIcon
| Pixmap (id : nat).

Definition isNull (i : QIcon) : bool :=
  match i with
  | NullIcon => true
  | Pixmap _ => false
  end.

(** The action: what its base class [KAction] shows (icon, text and tool
    tip, written by [setIcon], [setText] and [setToolTip]) and the members
    of [ToggleAction] (toggleaction.h is not among the sources; the
    members are those the constructors and methods name).  A [QString] is
    a string, the default-constructed one the empty string. *)
Record ToggleAction : Set := mkToggleAction {
  icon : QIcon;
  text : String.string;
  toolTip : String.string;
  officon : QIcon;
  onicon : QIcon;
  offcap : String.string;
  oncap : String.string;
  offTip : String.string;
  onTip : String.string;
  state : bool
}.

Definition setIcon (i : QIcon) (a : ToggleAction) : ToggleAction :=
  mkToggleAction i (text a) (toolTip a) (officon a) (onicon a)
                 (offcap a) (oncap a) (offTip a) (onTip a) (state a).

Definition setText (t : String.string) (a : ToggleAction) : ToggleAction :=
  mkToggleAction (icon a) t (toolTip a) (officon a) (onicon a)
                 (offcap a) (oncap a) (offTip a) (onTip a) (state a).

Definition setToolTip (t : String.string) (a : ToggleAction) : ToggleAction :=
  mkToggleAction (icon a) (text a) t (officon a) (onicon a)
                 (offcap a) (oncap a) (offTip a) (onTip a) (state a).

Definition set_offTip (t : String.string) (a : ToggleAction) : ToggleAction :=
  mkToggleAction (icon a) (text a) (toolTip a) (officon a) (onicon a)
                 (offcap a) (oncap a) t (onTip a) (state a).

Definition set_onTip (t : String.string) (a : ToggleAction) : ToggleAction :=
  mkToggleAction (icon a) (text a) (toolTip a) (officon a) (onicon a)
                 (offcap a) (oncap a) (offTip a) t (state a).

Definition set_state (b : bool) (a : ToggleAction) : ToggleAction :=
  mkToggleAction (icon a) (text a) (toolTip a) (officon a) (onicon a)
                 (offcap a) (oncap a) (offTip a) (onTip a) b.

(** [ToggleAction::ToggleAction(ontext, onpix, offtext, offpix, ...)]: the
    base class is built with the "on" text and icon.  The accelerator,
    receiver, slot, parent and name only reach the base class. *)
Definition new_with_icons
    (ontext : String.string) (onpix : QIcon)
    (offtext : String.string) (offpix : QIcon) : ToggleAction :=
  mkToggleAction onpix ontext String.EmptyString
                 offpix onpix offtext ontext
                 String.EmptyString String.EmptyString true.

(** [ToggleAction::ToggleAction(ontext, offtext, ...)]: the base class is
    built with the "on" text and no icon. *)
Definition new_without_icons (ontext offtext : String.string) : ToggleAction :=
  mkToggleAction NullIcon ontext String.EmptyString
                 NullIcon NullIcon offtext ontext
                 String.EmptyString String.EmptyString true.

(** [ToggleAction::turnOff] *)
Definition turnOff (a : ToggleAction) : ToggleAction :=
  let a := if negb (isNull (officon a)) then setIcon (officon a) a else a in
  let a := setText (offcap a) a in
  let a := setToolTip (offTip a) a in
  set_state false a.

(** [ToggleAction::turnOn] *)
Definition turnOn (a : ToggleAction) : ToggleAction :=
  let a := if negb (isNull (onicon a)) then setIcon (onicon a) a else a in
  let a := setText (oncap a) a in
  let a := setToolTip (onTip a) a in
  set_state true a.

(** [ToggleAction::setOnToolTip] *)
Definition setOnToolTip (tip : String.string) (a : ToggleAction) : ToggleAction :=
  let a := set_onTip tip a in
  if state a then setToolTip tip a else a.

(** [ToggleAction::setOffToolTip] *)
Definition setOffToolTip (tip : String.string) (a : ToggleAction) : ToggleAction :=
  let a := set_offTip tip a in
  if negb (state a) then setToolTip tip a else a.

(** The methods as a datatype, and the effect of a sequence of calls. *)
Inductive Op : Set :=
| Op_turnOff
| Op_turnOn
| Op_setOnToolTip (tip : String.string)
| Op_setOffToolTip (tip : String.string).

Definition apply (o : Op) (a : ToggleAction) : ToggleAction :=
  match o with
  | Op_turnOff => turnOff a
  | Op_turnOn => turnOn a
  | Op_setOnToolTip tip => setOnToolTip tip a
  | Op_setOffToolTip tip => setOffToolTip tip a
  end.

Fixpoint run (ops : list Op) (a : ToggleAction) : ToggleAction :=
  match ops with
  | nil => a
  | cons o ops' => run ops' (apply o a)
  end.

(** What an action shows agrees with its state. *)
Definition shows_state (a : ToggleAction) : Prop :=
  text a = (if state a then oncap a else offcap a)
  /\ toolTip a = (if state a then onTip a else offTip a).

End ToggleAction.

(** * Properties *)

(** ** The comparisons *)

Lemma Rgtb_true (a b : R) : b < a -> Rgtb a b = true.
Proof. intros H. unfold Rgtb. destruct (Rlt_dec b a); [reflexivity | contradiction]. Qed.

Lemma Rgtb_false (a b : R) : a <= b -> Rgtb a b = false.
Proof. intros H. unfold Rgtb. destruct (Rlt_dec b a); [lra | reflexivity]. Qed.

Lemma Reqb_true (a b : R) : a = b -> Reqb a b = true.
Proof. intros H. unfold Reqb. destruct (Req_dec_T a b); [reflexivity | contradiction]. Qed.

Lemma Reqb_false (a b : R) : a <> b -> Reqb a b = false.
Proof. intros H. unfold Reqb. destruct (Req_dec_T a b); [contradiction | reflexivity]. Qed.

(** ** Range normalisation *)

Section Ranges.

Import KSUtils.

Lemma eqmod360_refl (a : R) : eqmod360 a a.
Proof. exists 0%Z. simpl. lra. Qed.

Lemma eqmod360_sym (a b : R) : eqmod360 a b -> eqmod360 b a.
Proof. intros [k H]. exists (- k)%Z. rewrite opp_IZR. lra. Qed.

Lemma eqmod360_trans (a b c : R) : eqmod360 a b -> eqmod360 b c -> eqmod360 a c.
Proof. intros [k H] [l H']. exists (k + l)%Z. rewrite plus_IZR. lra. Qed.

Lemma eqmod360_shift (a b : R) (k : Z) : a = b + 360 * IZR k -> eqmod360 a b.
Proof. intros H. now exists k. Qed.

Lemma range360_bounds (r : R) : 0 <= range360 r < 360.
Proof.
  unfold range360.
  destruct (base_Int_part (r / 360)) as [Hle Hgt].
  replace r with (360 * (r / 360)) at 1 3 by field.
  lra.
Qed.

Lemma range360_eqmod (r : R) : eqmod360 (range360 r) r.
Proof.
  exists (- Int_part (r / 360))%Z. unfold range360. rewrite opp_IZR. lra.
Qed.

Lemma rangePA_bounds (x : R) : -180 < rangePA x <= 180.
Proof.
  unfold rangePA.
  destruct (base_Int_part ((180 - x) / 360)) as [Hle Hgt].
  assert (E : 180 - x = 360 * ((180 - x) / 360)) by field.
  lra.
Qed.

Lemma rangePA_eqmod (x : R) : eqmod360 (rangePA x) x.
Proof. exists (Int_part ((180 - x) / 360)). reflexivity. Qed.

(** Whole turns that fit strictly inside one turn are no turn at all. *)
Lemma turns_zero (k : Z) : -360 < 360 * IZR k < 360 -> k = 0%Z.
Proof. intros H. apply one_IZR_lt1. lra. Qed.

Lemma range360_unique (r y : R) :
  0 <= y < 360 -> eqmod360 y r -> range360 r = y.
Proof.
  intros Hy [k Hk].
  destruct (range360_eqmod r) as [l Hl].
  pose proof (range360_bounds r) as Hb.
  assert (Hz : (l - k)%Z = 0%Z).
  { apply turns_zero. rewrite minus_IZR. lra. }
  assert (Hlk : IZR l = IZR k) by (f_equal; lia).
  lra.
Qed.

Lemma rangePA_unique (x y : R) :
  -180 < y <= 180 -> eqmod360 y x -> rangePA x = y.
Proof.
  intros Hy [k Hk].
  destruct (rangePA_eqmod x) as [l Hl].
  pose proof (rangePA_bounds x) as Hb.
  assert (Hz : (l - k)%Z = 0%Z).
  { apply turns_zero. rewrite minus_IZR. lra. }
  assert (Hlk : IZR l = IZR k) by (f_equal; lia).
  lra.
Qed.

Lemma rangePA_id (x : R) : -180 < x <= 180 -> rangePA x = x.
Proof. intros H. apply rangePA_unique; [exact H | apply eqmod360_refl]. Qed.

Lemma range360_id (r : R) : 0 <= r < 360 -> range360 r = r.
Proof. intros H. apply range360_unique; [exact H | apply eqmod360_refl]. Qed.

End Ranges.

(** ** RotatorUtils *)

Section Rotator.

Import Mount RotatorUtils.

(** Unfolds a method down to its result and final state. *)
Ltac run_method :=
  unfold evalM, execM, initRotatorUtils, pierSideChanged, calcRotatorAngle,
    calcCameraAngle, calcOffsetAngle, updateOffset, getMountPierside,
    setImagePierside, checkImageFlip, DiffPA, bind, gets, modify, ret;
  cbn [fst snd].

Lemma calcCameraAngle_run (s : State) (RotatorAngle : R) (flippedImage : bool) :
  calcCameraAngle RotatorAngle flippedImage s =
  (KSUtils.rangePA (cameraAngle_unnormalised s RotatorAngle flippedImage), s).
Proof.
  run_method. unfold cameraAngle_unnormalised.
  destruct (m_flippedMount s), flippedImage; reflexivity.
Qed.

Lemma calcRotatorAngle_run (s : State) (PositionAngle : R) :
  calcRotatorAngle PositionAngle s =
  (KSUtils.range360
     ((if m_flippedMount s then PositionAngle + 180 else PositionAngle) - m_Offset s),
   s).
Proof. reflexivity. Qed.

Lemma calcOffsetAngle_run (s : State) (RotatorAngle PositionAngle : R) :
  calcOffsetAngle RotatorAngle PositionAngle s =
  (KSUtils.rangePA
     (let OffsetAngle :=
        if Rgtb RotatorAngle 180
        then PositionAngle - (RotatorAngle - 360)
        else PositionAngle - RotatorAngle in
      if m_flippedMount s then OffsetAngle - 180 else OffsetAngle),
   s).
Proof. reflexivity. Qed.

Lemma checkImageFlip_run (s : State) :
  checkImageFlip s =
  (negb (PierSide_eqb (m_ImgPierside s) PIER_UNKNOWN)
   && xorb (negb (m_flippedMount s))
           (PierSide_eqb (m_ImgPierside s) (m_CalPierside s)),
   s).
Proof.
  destruct s as [mount cal img off flipped opt trains].
  run_method. cbn.
  destruct img, cal, flipped; reflexivity.
Qed.

Lemma DiffPA_run (s : State) (diff : R) :
  DiffPA diff s = ((if Rgtb diff 180 then 360 - diff else diff), s).
Proof. run_method. destruct (Rgtb diff 180); reflexivity. Qed.

(** The unnormalised camera angle is the rotator angle plus the offset,
    plus a half turn when the flip states differ, up to whole turns. *)
Lemma cameraAngle_unnormalised_eqmod (s : State) (RotatorAngle : R) (flippedImage : bool) :
  eqmod360 (cameraAngle_unnormalised s RotatorAngle flippedImage)
           (RotatorAngle + m_Offset s
            + (if xorb (m_flippedMount s) flippedImage then 180 else 0)).
Proof.
  unfold cameraAngle_unnormalised.
  destruct (Rgtb RotatorAngle 180);
    destruct (xorb (m_flippedMount s) flippedImage);
    cbv zeta;
    match goal with
    | |- context [Rgtb ?b 0] => destruct (Rgtb b 0)
    | _ => idtac
    end;
    first [ apply (eqmod360_shift _ _ 0); simpl; lra
          | apply (eqmod360_shift _ _ (-1)); simpl; lra
          | apply (eqmod360_shift _ _ (-2)); simpl; lra ].
Qed.

(** C1 (as amended): [checkImageFlip] answers true exactly when the stored
    image pier side is known (not [PIER_UNKNOWN]) and
    [(NOT mountFlipped) XOR (imagePierSide == imagePierSideAtCalibration)],
    that is, when [mountFlipped] agrees with the test
    [imagePierSide == imagePierSideAtCalibration]; in every other case it
    answers false.  The same holds when the side is first stored with
    [setImagePierside]. *)
Theorem checkImageFlip_spec :
  (forall s : State,
      evalM checkImageFlip s =
      negb (PierSide_eqb (m_ImgPierside s) PIER_UNKNOWN)
      && xorb (negb (m_flippedMount s))
              (PierSide_eqb (m_ImgPierside s) (m_CalPierside s)))
  /\ (forall (s : State) (imagePierSide : PierSide),
         evalM (imageFlipDetected imagePierSide) s =
         negb (PierSide_eqb imagePierSide PIER_UNKNOWN)
         && Bool.eqb (m_flippedMount s)
                     (PierSide_eqb imagePierSide (m_CalPierside s))).
Proof.
  split.
  - intros s. unfold evalM. now rewrite checkImageFlip_run.
  - intros s imagePierSide. unfold evalM, imageFlipDetected, bind, setImagePierside, modify.
    rewrite checkImageFlip_run. cbn.
    destruct imagePierSide, (m_CalPierside s), (m_flippedMount s); reflexivity.
Qed.

(** C1 (as stated) fails: calibrated on the west side, mount not flipped,
    image taken on the west side, the code reports no flip where the
    stated formula gives true; and with an unknown image side on a flipped
    mount the code reports no flip where the stated formula gives true. *)
Lemma checkImageFlip_not_spec :
  evalM (imageFlipDetected PIER_WEST) state0 = false
  /\ imageFlipDetected_spec state0 PIER_WEST = true
  /\ evalM (imageFlipDetected PIER_UNKNOWN) (set_m_flippedMount true state0) = false
  /\ imageFlipDetected_spec (set_m_flippedMount true state0) PIER_UNKNOWN = true.
Proof. repeat split. Qed.

(** C2: [calcCameraAngle] returns the value
    [rotatorAngle > 180 ? (rotatorAngle - 360) + offset : rotatorAngle + offset],
    moved by 180 (down when positive, up otherwise) when
    [mountFlipped XOR imageFlipped], and then normalised: the result lies
    in (-180, 180] and differs from that value by whole turns.  With
    offset 10, no flips and rotator angle 200 the result is -150. *)
Theorem calcCameraAngle_spec :
  (forall (s : State) (RotatorAngle : R) (flippedImage : bool),
      let PA := evalM (calcCameraAngle RotatorAngle flippedImage) s in
      PA = KSUtils.rangePA (cameraAngle_unnormalised s RotatorAngle flippedImage)
      /\ -180 < PA <= 180
      /\ eqmod360 PA (cameraAngle_unnormalised s RotatorAngle flippedImage))
  /\ (forall s : State,
         evalM (calcCameraAngle 200 false)
               (set_m_flippedMount false (set_m_Offset 10 s)) = -150).
Proof.
  split.
  - intros s RotatorAngle flippedImage PA. subst PA.
    unfold evalM. rewrite calcCameraAngle_run. cbn [fst].
    split; [reflexivity | split].
    + apply rangePA_bounds.
    + apply rangePA_eqmod.
  - intros s. unfold evalM. rewrite calcCameraAngle_run. cbn [fst].
    unfold cameraAngle_unnormalised. cbn.
    rewrite (Rgtb_true 200 180) by lra.
    apply rangePA_unique; [lra | apply (eqmod360_shift _ _ 0); simpl; lra].
Qed.

(** C4: for a rotator angle in [0, 360), any offset and either state of
    the mount, [calcCameraAngle] (image not flipped) followed by
    [calcRotatorAngle] in the same state gives the rotator angle back: the
    result equals it modulo 360, and being in [0, 360) it is that angle. *)
Theorem calcRotatorAngle_calcCameraAngle
    (s : State) (RotatorAngle : R) :
  0 <= RotatorAngle < 360 ->
  let A := evalM (PA <- calcCameraAngle RotatorAngle false ;; calcRotatorAngle PA) s in
  eqmod360 A RotatorAngle /\ A = RotatorAngle.
Proof.
  intros HA A.
  assert (E : A = RotatorAngle).
  { subst A. unfold evalM, bind.
    rewrite calcCameraAngle_run, calcRotatorAngle_run. cbn [fst].
    apply range360_unique; [exact HA |].
    apply eqmod360_sym.
    pose proof (cameraAngle_unnormalised_eqmod s RotatorAngle false) as H1.
    pose proof (rangePA_eqmod (cameraAngle_unnormalised s RotatorAngle false)) as H2.
    pose proof (eqmod360_trans _ _ _ H2 H1) as [k Hk].
    rewrite Hk.
    destruct (m_flippedMount s); cbn [xorb].
    - apply (eqmod360_shift _ _ (k + 1)). rewrite plus_IZR. lra.
    - apply (eqmod360_shift _ _ k). lra. }
  split; [rewrite E; apply eqmod360_refl | exact E].
Qed.

Lemma calcRotatorAngle_calcCameraAngle_witness :
  0 <= 200 < 360
  /\ evalM (PA <- calcCameraAngle 200 false ;; calcRotatorAngle PA)
           (set_m_flippedMount true (set_m_Offset 10 state0)) = 200.
Proof.
  split; [lra |].
  apply (calcRotatorAngle_calcCameraAngle
           (set_m_flippedMount true (set_m_Offset 10 state0)) 200).
  lra.
Defined.

(** C5: for a rotator angle in [0, 360) and a position angle in
    (-180, 180], in either state of the mount: once the offset computed by
    [calcOffsetAngle] from the pair is stored with [updateOffset],
    [calcCameraAngle] (image not flipped) maps the rotator angle to the
    position angle. *)
Theorem calcCameraAngle_calcOffsetAngle
    (s : State) (RotatorAngle PositionAngle : R) :
  0 <= RotatorAngle < 360 ->
  -180 < PositionAngle <= 180 ->
  evalM (OffsetAngle <- calcOffsetAngle RotatorAngle PositionAngle ;;
         updateOffset OffsetAngle ;;
         calcCameraAngle RotatorAngle false) s
  = PositionAngle.
Proof.
  intros HA HPA.
  unfold evalM, bind. rewrite calcOffsetAngle_run.
  unfold updateOffset, bind, modify. rewrite calcCameraAngle_run. cbn [fst].
  apply rangePA_unique; [exact HPA |].
  apply eqmod360_sym.
  match goal with
  | |- eqmod360 (cameraAngle_unnormalised ?s' _ _) _ =>
      pose proof (cameraAngle_unnormalised_eqmod s' RotatorAngle false) as H1;
      set (u := cameraAngle_unnormalised s' RotatorAngle false) in *
  end.
  cbn in H1.
  match type of H1 with
  | context [KSUtils.rangePA ?o] =>
      destruct (rangePA_eqmod o) as [l Hl]; rewrite Hl in H1; clear Hl
  end.
  destruct H1 as [k Hk]. rewrite Hk. clear Hk u.
  destruct (m_flippedMount s); cbn [xorb]; cbv zeta;
    destruct (Rgtb RotatorAngle 180).
  - apply (eqmod360_shift _ _ (l + k + 1)). rewrite !plus_IZR. lra.
  - apply (eqmod360_shift _ _ (l + k)). rewrite !plus_IZR. lra.
  - apply (eqmod360_shift _ _ (l + k + 1)). rewrite !plus_IZR. lra.
  - apply (eqmod360_shift _ _ (l + k)). rewrite !plus_IZR. lra.
Qed.

Lemma calcCameraAngle_calcOffsetAngle_witness :
  0 <= 350 < 360 /\ -180 < 20 <= 180
  /\ evalM (OffsetAngle <- calcOffsetAngle 350 20 ;;
            updateOffset OffsetAngle ;;
            calcCameraAngle 350 false)
           (set_m_flippedMount true state0) = 20.
Proof.
  split; [lra | split; [lra |]].
  apply (calcCameraAngle_calcOffsetAngle (set_m_flippedMount true state0) 350 20); lra.
Defined.

(** C9: the conversions and queries [calcCameraAngle],
    [calcRotatorAngle], [calcOffsetAngle], [checkImageFlip] and [DiffPA]
    leave the whole state (offset, [mountFlipped], calibration pier side,
    image pier side) as it was; the pier-side notification sets
    [mountFlipped] to [new side != calibration side] and nothing else; and
    no other call changes [mountFlipped]. *)
Theorem mountFlipped_frame :
  (forall (s : State) (RotatorAngle PositionAngle diff : R) (flippedImage : bool),
      execM (calcCameraAngle RotatorAngle flippedImage) s = s
      /\ execM (calcRotatorAngle PositionAngle) s = s
      /\ execM (calcOffsetAngle RotatorAngle PositionAngle) s = s
      /\ execM checkImageFlip s = s
      /\ execM (DiffPA diff) s = s)
  /\ (forall (s : State) (Side : PierSide),
         execM (pierSideChanged Side) s
         = set_m_flippedMount (negb (PierSide_eqb Side (m_CalPierside s))) s)
  /\ (forall (s : State) (c : Call),
         m_flippedMount (step c s) <> m_flippedMount s ->
         exists Side : PierSide, c = Notify_pierSideChanged Side).
Proof.
  split; [| split].
  - intros s RotatorAngle PositionAngle diff flippedImage. unfold execM.
    rewrite calcCameraAngle_run, calcRotatorAngle_run, calcOffsetAngle_run,
      checkImageFlip_run, DiffPA_run.
    repeat split.
  - intros s Side. reflexivity.
  - intros s c H.
    destruct c as [train | pa | ra fi | ra pa | a | | p | | d | Side];
      try (exfalso; apply H; unfold step, execM;
           rewrite ?calcCameraAngle_run, ?calcRotatorAngle_run,
             ?calcOffsetAngle_run, ?checkImageFlip_run, ?DiffPA_run;
           reflexivity).
    now exists Side.
Qed.

Lemma mountFlipped_frame_witness :
  m_flippedMount (step (Notify_pierSideChanged PIER_EAST) state0)
  <> m_flippedMount state0
  /\ exists Side : PierSide,
      Notify_pierSideChanged PIER_EAST = Notify_pierSideChanged Side.
Proof.
  assert (H : m_flippedMount (step (Notify_pierSideChanged PIER_EAST) state0)
              <> m_flippedMount state0) by (cbn; discriminate).
  split; [exact H |].
  exact (proj2 (proj2 mountFlipped_frame) state0 (Notify_pierSideChanged PIER_EAST) H).
Defined.

(** C10: whenever the stored image pier side is [PIER_UNKNOWN],
    [checkImageFlip] answers false, whatever [mountFlipped] and the
    calibration pier side are; so it does right after
    [setImagePierside PIER_UNKNOWN]. *)
Theorem checkImageFlip_unknown (s : State) :
  m_ImgPierside s = PIER_UNKNOWN ->
  evalM checkImageFlip s = false
  /\ evalM (setImagePierside PIER_UNKNOWN ;; checkImageFlip) s = false.
Proof.
  intros H. split.
  - unfold evalM. rewrite checkImageFlip_run. cbn [fst]. rewrite H. reflexivity.
  - unfold evalM, bind, setImagePierside, modify. rewrite checkImageFlip_run.
    reflexivity.
Qed.

Lemma checkImageFlip_unknown_witness :
  m_ImgPierside (set_m_flippedMount true state0) = PIER_UNKNOWN
  /\ evalM checkImageFlip (set_m_flippedMount true state0) = false.
Proof.
  split; [reflexivity |].
  apply (checkImageFlip_unknown (set_m_flippedMount true state0)). reflexivity.
Defined.

(** [DiffPA] returns its argument up to 180 and [360 - diff] above:
    0, 180, 270 and 359 give 0, 180, 90 and 1, and a difference in
    [0, 360) gives a result in [0, 180]. *)
Theorem DiffPA_spec :
  (forall (s : State) (diff : R),
      (diff <= 180 -> evalM (DiffPA diff) s = diff)
      /\ (180 < diff -> evalM (DiffPA diff) s = 360 - diff)
      /\ (0 <= diff < 360 -> 0 <= evalM (DiffPA diff) s <= 180))
  /\ (forall s : State,
         evalM (DiffPA 0) s = 0 /\ evalM (DiffPA 180) s = 180
         /\ evalM (DiffPA 270) s = 90 /\ evalM (DiffPA 359) s = 1).
Proof.
  assert (G : forall (s : State) (diff : R),
             (diff <= 180 -> evalM (DiffPA diff) s = diff)
             /\ (180 < diff -> evalM (DiffPA diff) s = 360 - diff)).
  { intros s diff. unfold evalM. rewrite DiffPA_run. cbn [fst].
    split; intros H; [rewrite Rgtb_false | rewrite Rgtb_true]; auto. }
  split.
  - intros s diff. destruct (G s diff) as [Hle Hgt].
    split; [exact Hle | split; [exact Hgt |]].
    intros Hd. destruct (Rle_lt_dec diff 180) as [H | H].
    + rewrite Hle by exact H. lra.
    + rewrite Hgt by exact H. lra.
  - intros s.
    rewrite (proj1 (G s 0)), (proj1 (G s 180)), (proj2 (G s 270)), (proj2 (G s 359))
      by lra.
    repeat split; lra.
Qed.

Lemma DiffPA_spec_witness :
  180 < 270 /\ evalM (DiffPA 270) state0 = 360 - 270.
Proof.
  assert (H : 180 < 270) by lra.
  split; [exact H |].
  exact (proj1 (proj2 (proj1 DiffPA_spec state0 270)) H).
Defined.

(** [calcRotatorAngle] gives the circular angle: a value in [0, 360) that
    equals, modulo 360, the position angle (plus 180 when the mount is
    flipped) minus the offset. *)
Theorem calcRotatorAngle_spec (s : State) (PositionAngle : R) :
  let A := evalM (calcRotatorAngle PositionAngle) s in
  0 <= A < 360
  /\ eqmod360 A ((if m_flippedMount s then PositionAngle + 180 else PositionAngle)
                 - m_Offset s).
Proof.
  intros A. subst A. unfold evalM. rewrite calcRotatorAngle_run. cbn [fst].
  split; [apply range360_bounds | apply range360_eqmod].
Qed.

End Rotator.

(** ** PoleAxis: the plane normal *)

Section Normal.

Import PoleAxis.

Lemma normSq_nonneg (a : V3) : 0 <= normSq a.
Proof. unfold normSq. nra. Qed.

Lemma normSq_zero (a : V3) : normSq a = 0 <-> a = V3_default.
Proof.
  split.
  - destruct a as [x y z]. unfold normSq, V3_default. cbn. intros H.
    assert (x = 0) by nra. assert (y = 0) by nra. assert (z = 0) by nra.
    subst. reflexivity.
  - intros ->. unfold normSq, V3_default. cbn. ring.
Qed.

(** [normal] in terms of the cross product of the two differences. *)
Lemma normal_cross (v1 v2 v3 : V3) :
  normal v1 v2 v3 =
  let c := V3_cross (V3_sub v2 v1) (V3_sub v3 v2) in
  if Reqb (normSq c) 0 then V3_default
  else mkV3 (X c / sqrt (normSq c)) (Y c / sqrt (normSq c)) (Z c / sqrt (normSq c)).
Proof. reflexivity. Qed.

Lemma normal_collinear (v1 v2 v3 : V3) :
  collinear v1 v2 v3 -> normal v1 v2 v3 = V3_default.
Proof.
  intros H. rewrite normal_cross. cbv zeta.
  rewrite Reqb_true; [reflexivity |]. now apply normSq_zero.
Qed.

(** Away from the degenerate case the result is the cross product divided
    by its length. *)
Lemma normal_scaled (v1 v2 v3 : V3) (len : R) :
  0 < len ->
  normSq (V3_cross (V3_sub v2 v1) (V3_sub v3 v2)) = len * len ->
  normal v1 v2 v3 =
  mkV3 (X (V3_cross (V3_sub v2 v1) (V3_sub v3 v2)) / len)
       (Y (V3_cross (V3_sub v2 v1) (V3_sub v3 v2)) / len)
       (Z (V3_cross (V3_sub v2 v1) (V3_sub v3 v2)) / len).
Proof.
  intros Hlen Hsq. rewrite normal_cross. cbv zeta.
  rewrite Reqb_false by nra.
  rewrite Hsq, sqrt_square by lra. reflexivity.
Qed.

Lemma length_scaled (c : V3) :
  c <> V3_default ->
  length (mkV3 (X c / sqrt (normSq c)) (Y c / sqrt (normSq c)) (Z c / sqrt (normSq c))) = 1.
Proof.
  intros Hc.
  assert (Hpos : 0 < normSq c).
  { destruct (normSq_nonneg c) as [H | H]; [exact H |].
    exfalso. apply Hc. now apply normSq_zero. }
  pose proof (sqrt_lt_R0 _ Hpos) as Hlen.
  pose proof (sqrt_sqrt (normSq c) (Rlt_le _ _ Hpos)) as Hsq.
  unfold length. cbn [X Y Z].
  set (len := sqrt (normSq c)) in *.
  replace (X c / len * (X c / len) + Y c / len * (Y c / len) + Z c / len * (Z c / len))
    with (normSq c / (len * len)) by (unfold normSq; field; lra).
  rewrite Hsq. unfold Rdiv. rewrite Rinv_r by lra. apply sqrt_1.
Qed.

(** C3: for three non-collinear points (the cross product of [v2 - v1] and
    [v3 - v2] is not zero) [normal] has length 1; for collinear points, in
    particular when two or all three of them coincide, it is the zero
    vector.  [normal] is a total function: it has a value on every input. *)
Theorem normal_unit_or_zero (v1 v2 v3 : V3) :
  (~ collinear v1 v2 v3 -> length (normal v1 v2 v3) = 1)
  /\ (collinear v1 v2 v3 -> normal v1 v2 v3 = V3_default)
  /\ (v1 = v2 \/ v2 = v3 \/ v1 = v3 -> normal v1 v2 v3 = V3_default).
Proof.
  split; [| split].
  - intros H. rewrite normal_cross. cbv zeta.
    rewrite Reqb_false.
    + now apply length_scaled.
    + intros E. apply H. now apply normSq_zero.
  - apply normal_collinear.
  - intros H. apply normal_collinear. unfold collinear, V3_cross, V3_sub, V3_default.
    cbn [X Y Z].
    destruct H as [-> | [-> | ->]]; f_equal; ring.
Qed.

Lemma normal_unit_or_zero_witness :
  (~ collinear (mkV3 1 0 0) (mkV3 0 1 0) (mkV3 (-1) 0 0)
   /\ length (normal (mkV3 1 0 0) (mkV3 0 1 0) (mkV3 (-1) 0 0)) = 1)
  /\ (collinear (mkV3 0 0 0) (mkV3 1 1 1) (mkV3 2 2 2)
      /\ normal (mkV3 0 0 0) (mkV3 1 1 1) (mkV3 2 2 2) = V3_default).
Proof.
  assert (H1 : ~ collinear (mkV3 1 0 0) (mkV3 0 1 0) (mkV3 (-1) 0 0)).
  { unfold collinear, V3_cross, V3_sub, V3_default. cbn [X Y Z].
    intros E. apply (f_equal Z) in E. cbn [Z] in E. lra. }
  assert (H2 : collinear (mkV3 0 0 0) (mkV3 1 1 1) (mkV3 2 2 2)).
  { unfold collinear, V3_cross, V3_sub, V3_default. cbn [X Y Z]. f_equal; ring. }
  split; split.
  - exact H1.
  - exact (proj1 (normal_unit_or_zero _ _ _) H1).
  - exact H2.
  - exact (proj1 (proj2 (normal_unit_or_zero _ _ _)) H2).
Defined.

(** C7: reversing the order of the three points negates the result:
    [normal v3 v2 v1 = - normal v1 v2 v3], for non-collinear points and
    (both sides being zero) for collinear ones too. *)
Theorem normal_reverse (v1 v2 v3 : V3) :
  normal v3 v2 v1 = V3_opp (normal v1 v2 v3).
Proof.
  rewrite !normal_cross. cbv zeta.
  set (c := V3_cross (V3_sub v2 v1) (V3_sub v3 v2)).
  assert (Ec : V3_cross (V3_sub v2 v3) (V3_sub v1 v2) = V3_opp c).
  { unfold c, V3_cross, V3_sub, V3_opp. cbn [X Y Z]. f_equal; ring. }
  rewrite Ec.
  assert (En : normSq (V3_opp c) = normSq c).
  { unfold normSq, V3_opp. cbn [X Y Z]. ring. }
  rewrite En.
  destruct (Reqb (normSq c) 0).
  - unfold V3_opp, V3_default. cbn [X Y Z]. f_equal; ring.
  - unfold V3_opp. cbn [X Y Z]. f_equal; unfold Rdiv; ring.
Qed.

End Normal.

(** ** PoleAxis: angles and directions *)

Section Directions.

Import PoleAxis.
Import SkyPoint(mkSkyPoint).

Lemma radians_setRadians (a : R) : Dms.radians (Dms.setRadians a) = a.
Proof.
  unfold Dms.radians, Dms.setRadians, Dms.DegToRad. cbn.
  field. apply PI_neq0.
Qed.

Lemma cos_setRadians (a : R) : Dms.cos (Dms.setRadians a) = cos a.
Proof. unfold Dms.cos. now rewrite radians_setRadians. Qed.

Lemma sin_setRadians (a : R) : Dms.sin (Dms.setRadians a) = sin a.
Proof. unfold Dms.sin. now rewrite radians_setRadians. Qed.

Lemma dms_cos_0 : Dms.cos (Dms.mkdms 0) = 1.
Proof. unfold Dms.cos, Dms.radians. cbn. rewrite Rmult_0_l. apply cos_0. Qed.

Lemma dms_sin_0 : Dms.sin (Dms.mkdms 0) = 0.
Proof. unfold Dms.sin, Dms.radians. cbn. rewrite Rmult_0_l. apply sin_0. Qed.

Lemma dms_cos_90 : Dms.cos (Dms.mkdms 90) = 0.
Proof.
  unfold Dms.cos, Dms.radians, Dms.DegToRad. cbn.
  replace (90 * (PI / 180)) with (PI / 2) by lra. apply cos_PI2.
Qed.

Lemma dms_sin_90 : Dms.sin (Dms.mkdms 90) = 1.
Proof.
  unfold Dms.sin, Dms.radians, Dms.DegToRad. cbn.
  replace (90 * (PI / 180)) with (PI / 2) by lra. apply sin_PI2.
Qed.

Lemma dms_cos_180 : Dms.cos (Dms.mkdms 180) = -1.
Proof.
  unfold Dms.cos, Dms.radians, Dms.DegToRad. cbn.
  replace (180 * (PI / 180)) with PI by lra. apply cos_PI.
Qed.

Lemma dms_sin_180 : Dms.sin (Dms.mkdms 180) = 0.
Proof.
  unfold Dms.sin, Dms.radians, Dms.DegToRad. cbn.
  replace (180 * (PI / 180)) with PI by lra. apply sin_PI.
Qed.

(** The hypotenuse of a point off the origin. *)
Lemma hypot_pos (x y : R) : x <> 0 \/ y <> 0 -> 0 < sqrt (x * x + y * y).
Proof. intros H. apply sqrt_lt_R0. destruct H; nra. Qed.

Lemma sqrt_one_plus_sqr_ratio (x y : R) :
  0 < x -> sqrt (1 + (y / x)²) = sqrt (x * x + y * y) / x.
Proof.
  intros Hx.
  pose proof (hypot_pos x y (or_introl (Rgt_not_eq _ _ Hx))) as Hr.
  assert (Hsq : sqrt (x * x + y * y) * sqrt (x * x + y * y) = x * x + y * y)
    by (apply sqrt_sqrt; nra).
  apply sqrt_lem_1.
  - unfold Rsqr. nra.
  - apply Rlt_le, Rdiv_lt_0_compat; assumption.
  - unfold Rsqr.
    replace (sqrt (x * x + y * y) / x * (sqrt (x * x + y * y) / x))
      with (sqrt (x * x + y * y) * sqrt (x * x + y * y) / (x * x)) by (field; lra).
    rewrite Hsq. field. lra.
Qed.

(** Cosine and sine of [atan (y / x)] for [x] on either side of 0. *)
Lemma cos_sin_atan_ratio (x y : R) :
  x <> 0 ->
  let r := sqrt (x * x + y * y) in
  (0 < x -> cos (atan (y / x)) = x / r /\ sin (atan (y / x)) = y / r)
  /\ (x < 0 -> cos (atan (y / x)) = - (x / r) /\ sin (atan (y / x)) = - (y / r)).
Proof.
  intros Hx r.
  assert (Hr : 0 < r) by (apply hypot_pos; now left).
  split; intros Hsign.
  - rewrite cos_atan, sin_atan, sqrt_one_plus_sqr_ratio by assumption.
    fold r. split; field; lra.
  - replace (y / x) with ((- y) / (- x)) by (field; lra).
    rewrite cos_atan, sin_atan, sqrt_one_plus_sqr_ratio by lra.
    replace (- x * - x + - y * - y) with (x * x + y * y) by ring.
    fold r. split; field; lra.
Qed.

(** [atan2 y x] is the angle of the point [(x, y)]. *)
Lemma cos_sin_atan2 (x y : R) :
  x <> 0 \/ y <> 0 ->
  cos (Cmath.atan2 y x) = x / sqrt (x * x + y * y)
  /\ sin (Cmath.atan2 y x) = y / sqrt (x * x + y * y).
Proof.
  intros H0. unfold Cmath.atan2.
  destruct (Rlt_dec 0 x) as [Hx | Hx].
  - apply (cos_sin_atan_ratio x y); lra.
  - destruct (Rlt_dec x 0) as [Hx' | Hx'].
    + destruct (cos_sin_atan_ratio x y ltac:(lra)) as [_ Hneg].
      destruct (Hneg Hx') as [Hc Hs].
      destruct (Rle_dec 0 y) as [Hy | Hy].
      * rewrite neg_cos, neg_sin, Hc, Hs. split; lra.
      * rewrite cos_minus, sin_minus.
        rewrite cos_PI, sin_PI, Hc, Hs. split; lra.
    + assert (x = 0) by lra. subst x.
      assert (Hy0 : y <> 0) by (destruct H0; [lra | assumption]).
      replace (0 * 0 + y * y) with (y * y) by ring.
      destruct (Rlt_dec 0 y) as [Hy | Hy].
      * rewrite sqrt_square by lra. rewrite cos_PI2, sin_PI2. split; field; lra.
      * destruct (Rlt_dec y 0) as [Hy' | Hy']; [| lra].
        replace (y * y) with ((- y) * (- y)) by ring.
        rewrite sqrt_square by lra.
        rewrite cos_neg, sin_neg, cos_PI2, sin_PI2. split; field; lra.
Qed.

(** The three sample points of the equator case and their directions. *)
Lemma dirCos_equator (to_float : R -> R) :
  to_float 0 = 0 -> to_float 1 = 1 -> to_float (-1) = -1 ->
  dirCos_SkyPoint to_float (mkSkyPoint (Dms.mkdms 0) (Dms.mkdms 0)) = mkV3 1 0 0
  /\ dirCos_SkyPoint to_float (mkSkyPoint (Dms.mkdms 90) (Dms.mkdms 0)) = mkV3 0 1 0
  /\ dirCos_SkyPoint to_float (mkSkyPoint (Dms.mkdms 180) (Dms.mkdms 0)) = mkV3 (-1) 0 0.
Proof.
  intros H0 H1 Hm1. unfold dirCos_SkyPoint, dirCos. cbn [SkyPoint.ra SkyPoint.dec].
  rewrite dms_cos_0, dms_sin_0, dms_cos_90, dms_sin_90, dms_cos_180, dms_sin_180.
  rewrite !Rmult_1_l, H0, H1, Hm1. repeat split.
Qed.

Lemma length_axis (z : R) : z = 1 \/ z = -1 -> length (mkV3 0 0 z) = 1.
Proof.
  intros H. unfold length. cbn [X Y Z].
  replace (0 * 0 + 0 * 0 + z * z) with 1 by (destruct H; subst; ring).
  apply sqrt_1.
Qed.

(** C6: [poleAxis] is [normal] of the three directions [dirCos p1],
    [dirCos p2], [dirCos p3], with the sign as [normal] computed it (for
    the equator points in the reverse order the axis points south and is
    returned so).  For the points at secondary 0 and primary 0, 90, 180
    degrees the result is (0, 0, 1), of length 1, when the single-precision
    rounding keeps 0, 1 and -1. *)
Theorem poleAxis_spec (to_float : R -> R) :
  (forall p1 p2 p3 : SkyPoint.SkyPoint,
      poleAxis to_float p1 p2 p3 =
      normal (dirCos to_float (SkyPoint.ra p1) (SkyPoint.dec p1))
             (dirCos to_float (SkyPoint.ra p2) (SkyPoint.dec p2))
             (dirCos to_float (SkyPoint.ra p3) (SkyPoint.dec p3)))
  /\ (to_float 0 = 0 -> to_float 1 = 1 -> to_float (-1) = -1 ->
      let p0 := mkSkyPoint (Dms.mkdms 0) (Dms.mkdms 0) in
      let p90 := mkSkyPoint (Dms.mkdms 90) (Dms.mkdms 0) in
      let p180 := mkSkyPoint (Dms.mkdms 180) (Dms.mkdms 0) in
      (poleAxis to_float p0 p90 p180 = mkV3 0 0 1
       /\ length (poleAxis to_float p0 p90 p180) = 1)
      /\ (poleAxis to_float p180 p90 p0 = mkV3 0 0 (-1)
          /\ length (poleAxis to_float p180 p90 p0) = 1)).
Proof.
  split; [reflexivity |].
  intros H0 H1 Hm1 p0 p90 p180.
  destruct (dirCos_equator to_float H0 H1 Hm1) as (E0 & E90 & E180).
  fold p0 in E0. fold p90 in E90. fold p180 in E180.
  assert (N : poleAxis to_float p0 p90 p180 = mkV3 0 0 1).
  { unfold poleAxis. rewrite E0, E90, E180.
    rewrite (normal_scaled _ _ _ 2);
      [ | lra | unfold normSq, V3_cross, V3_sub; cbn [X Y Z]; ring ].
    unfold V3_cross, V3_sub. cbn [X Y Z]. f_equal; field. }
  assert (S : poleAxis to_float p180 p90 p0 = mkV3 0 0 (-1)).
  { unfold poleAxis. rewrite E0, E90, E180.
    rewrite (normal_scaled _ _ _ 2);
      [ | lra | unfold normSq, V3_cross, V3_sub; cbn [X Y Z]; ring ].
    unfold V3_cross, V3_sub. cbn [X Y Z]. f_equal; field. }
  rewrite N, S.
  repeat split; apply length_axis; auto.
Qed.

Lemma poleAxis_spec_witness :
  poleAxis (fun x : R => x)
           (mkSkyPoint (Dms.mkdms 0) (Dms.mkdms 0))
           (mkSkyPoint (Dms.mkdms 90) (Dms.mkdms 0))
           (mkSkyPoint (Dms.mkdms 180) (Dms.mkdms 0))
  = mkV3 0 0 1.
Proof.
  exact (proj1 (proj1 (proj2 (poleAxis_spec (fun x : R => x))
                             eq_refl eq_refl eq_refl))).
Defined.

(** Components of a unit vector lie between -1 and 1. *)
Lemma unit_components (v : V3) :
  normSq v = 1 -> -1 <= X v <= 1 /\ -1 <= Y v <= 1 /\ -1 <= Z v <= 1.
Proof. unfold normSq. intros H. repeat split; nra. Qed.

(** On exact reals the direction of the two angles of a unit vector is
    the vector, the poles included; at a pole the primary angle does not
    matter. *)
Lemma direction_of_angles (v : V3) :
  normSq v = 1 ->
  Dms.sin (secondary v) = Z v
  /\ Dms.cos (secondary v) * Dms.cos (primary v) = X v
  /\ Dms.cos (secondary v) * Dms.sin (primary v) = Y v
  /\ (Z v = 1 \/ Z v = -1 ->
      forall p : Dms.dms,
        Dms.cos (secondary v) * Dms.cos p = X v
        /\ Dms.cos (secondary v) * Dms.sin p = Y v).
Proof.
  intros Hu.
  destruct (unit_components v Hu) as (_ & _ & Hz).
  unfold secondary, primary.
  rewrite !cos_setRadians, !sin_setRadians.
  rewrite sin_asin, cos_asin by exact Hz.
  unfold normSq in Hu.
  assert (E : 1 - (Z v)² = X v * X v + Y v * Y v) by (unfold Rsqr; lra).
  rewrite E.
  split; [reflexivity |].
  destruct (Req_dec_T (X v * X v + Y v * Y v) 0) as [Hzero | Hpos].
  - assert (Hx : X v = 0) by nra. assert (Hy : Y v = 0) by nra.
    rewrite Hzero, sqrt_0, Hx, Hy. repeat split; try intros _ p; try split; ring.
  - assert (Hxy : X v <> 0 \/ Y v <> 0).
    { destruct (Req_dec_T (X v) 0) as [Hx | Hx]; [right | left; exact Hx].
      intros Hy. apply Hpos. rewrite Hx, Hy. ring. }
    destruct (cos_sin_atan2 (X v) (Y v) Hxy) as [Hc Hs].
    pose proof (hypot_pos _ _ Hxy) as Hr.
    rewrite Hc, Hs.
    split; [field; lra | split; [field; lra |]].
    intros Hpole. exfalso. apply Hpos. destruct Hpole as [Hp | Hp]; rewrite Hp in Hu; lra.
Qed.

(** C8: for a unit vector [v] with [-1 < z < 1], [dirCos (primary v)
    (secondary v)] is [v] up to the tolerance of the single-precision
    rounding: each component is within [eps] of that of [v], when
    [to_float] moves no number of [-1, 1] by more than [eps].  At the poles
    ([z = 1] or [z = -1]) the same holds whatever primary angle is
    supplied. *)
Theorem dirCos_primary_secondary (to_float : R -> R) (eps : R) (v : V3) :
  (forall x : R, -1 <= x <= 1 -> Rabs (to_float x - x) <= eps) ->
  normSq v = 1 ->
  (-1 < Z v < 1 -> V3_close eps (dirCos to_float (primary v) (secondary v)) v)
  /\ (Z v = 1 \/ Z v = -1 ->
      forall p : Dms.dms, V3_close eps (dirCos to_float p (secondary v)) v).
Proof.
  intros Hround Hu.
  destruct (unit_components v Hu) as (Hx & Hy & Hz).
  destruct (direction_of_angles v Hu) as (Es & Ex & Ey & Epole).
  split.
  - intros _. unfold V3_close, dirCos. cbn [X Y Z].
    rewrite Es, Ex, Ey. repeat split; apply Hround; assumption.
  - intros Hpole p. destruct (Epole Hpole p) as [Ex' Ey'].
    unfold V3_close, dirCos. cbn [X Y Z].
    rewrite Es, Ex', Ey'. repeat split; apply Hround; assumption.
Qed.

Lemma dirCos_primary_secondary_witness :
  (forall x : R, -1 <= x <= 1 -> Rabs ((fun y : R => y) x - x) <= 0)
  /\ normSq (mkV3 (3 / 5) 0 (4 / 5)) = 1
  /\ -1 < Z (mkV3 (3 / 5) 0 (4 / 5)) < 1
  /\ V3_close 0 (dirCos (fun y : R => y)
                        (primary (mkV3 (3 / 5) 0 (4 / 5)))
                        (secondary (mkV3 (3 / 5) 0 (4 / 5))))
              (mkV3 (3 / 5) 0 (4 / 5)).
Proof.
  assert (Hround : forall x : R, -1 <= x <= 1 -> Rabs ((fun y : R => y) x - x) <= 0).
  { intros x _. cbv beta. rewrite Rminus_diag, Rabs_R0. lra. }
  assert (Hu : normSq (mkV3 (3 / 5) 0 (4 / 5)) = 1).
  { unfold normSq. cbn [X Y Z]. field. }
  assert (Hz : -1 < Z (mkV3 (3 / 5) 0 (4 / 5)) < 1).
  { cbn [Z]. lra. }
  split; [exact Hround | split; [exact Hu | split; [exact Hz |]]].
  exact (proj1 (dirCos_primary_secondary (fun y : R => y) 0
                  (mkV3 (3 / 5) 0 (4 / 5)) Hround Hu) Hz).
Defined.

End Directions.

(** ** RotatorUtils: how the conversions compose *)

Section RotatorCompose.

Import Mount RotatorUtils.

(** A circular angle and its folding into the signed range differ by a
    whole turn at most. *)
Lemma fold_eqmod (RotatorAngle x : R) :
  eqmod360 ((if Rgtb RotatorAngle 180 then x - (RotatorAngle - 360) else x - RotatorAngle))
           (x - RotatorAngle).
Proof.
  destruct (Rgtb RotatorAngle 180).
  - apply (eqmod360_shift _ _ 1). simpl. lra.
  - apply (eqmod360_shift _ _ 0). simpl. lra.
Qed.

Lemma eqmod360_plus (a b c : R) : eqmod360 a b -> eqmod360 (a + c) (b + c).
Proof. intros [k H]. exists k. lra. Qed.

(** [calcOffsetAngle] returns a value in (-180, 180] that equals, modulo
    360, the position angle minus the rotator angle, minus 180 when the
    mount is flipped. *)
Theorem calcOffsetAngle_spec (s : State) (RotatorAngle PositionAngle : R) :
  let O := evalM (calcOffsetAngle RotatorAngle PositionAngle) s in
  -180 < O <= 180
  /\ eqmod360 O (PositionAngle - RotatorAngle
                 - (if m_flippedMount s then 180 else 0)).
Proof.
  intros O. subst O. unfold evalM. rewrite calcOffsetAngle_run. cbn [fst].
  split; [apply rangePA_bounds |].
  eapply eqmod360_trans; [apply rangePA_eqmod |]. cbv zeta.
  pose proof (fold_eqmod RotatorAngle PositionAngle) as [k Hk].
  rewrite Hk.
  destruct (m_flippedMount s).
  - apply (eqmod360_shift _ _ k). lra.
  - apply (eqmod360_shift _ _ k). lra.
Qed.

(** For a position angle in (-180, 180], [calcRotatorAngle] followed by
    [calcCameraAngle] (image not flipped) in the same state gives the
    position angle back, for any offset and either state of the mount. *)
Theorem calcCameraAngle_calcRotatorAngle (s : State) (PositionAngle : R) :
  -180 < PositionAngle <= 180 ->
  evalM (A <- calcRotatorAngle PositionAngle ;; calcCameraAngle A false) s
  = PositionAngle.
Proof.
  intros HPA. unfold evalM, bind.
  rewrite calcRotatorAngle_run, calcCameraAngle_run. cbn [fst].
  apply rangePA_unique; [exact HPA |].
  apply eqmod360_sym.
  eapply eqmod360_trans; [apply cameraAngle_unnormalised_eqmod |].
  match goal with
  | |- context [KSUtils.range360 ?x] => destruct (range360_eqmod x) as [k Hk]; rewrite Hk
  end.
  destruct (m_flippedMount s); cbn [xorb].
  - apply (eqmod360_shift _ _ (k + 1)). rewrite plus_IZR. lra.
  - apply (eqmod360_shift _ _ k). lra.
Qed.

Lemma calcCameraAngle_calcRotatorAngle_witness :
  -180 < -170 <= 180
  /\ evalM (A <- calcRotatorAngle (-170) ;; calcCameraAngle A false)
           (set_m_flippedMount true (set_m_Offset 25 state0)) = -170.
Proof.
  assert (H : -180 < -170 <= 180) by lra.
  split; [exact H |].
  exact (calcCameraAngle_calcRotatorAngle
           (set_m_flippedMount true (set_m_Offset 25 state0)) (-170) H).
Defined.

(** When the stored offset lies in (-180, 180], [calcOffsetAngle] applied
    to a rotator angle and the camera angle that [calcCameraAngle] (image
    not flipped) gives for it returns the stored offset, for any rotator
    angle and either state of the mount. *)
Theorem calcOffsetAngle_calcCameraAngle (s : State) (RotatorAngle : R) :
  -180 < m_Offset s <= 180 ->
  evalM (PA <- calcCameraAngle RotatorAngle false ;; calcOffsetAngle RotatorAngle PA) s
  = m_Offset s.
Proof.
  intros Hoff. unfold evalM, bind.
  rewrite calcCameraAngle_run, calcOffsetAngle_run. cbn [fst].
  apply rangePA_unique; [exact Hoff |].
  apply eqmod360_sym. cbv zeta.
  destruct (rangePA_eqmod (cameraAngle_unnormalised s RotatorAngle false)) as [k Hk].
  destruct (cameraAngle_unnormalised_eqmod s RotatorAngle false) as [l Hl].
  rewrite Hk, Hl. clear Hk Hl.
  match goal with
  | |- context [if Rgtb RotatorAngle 180 then ?x - _ else _] =>
      destruct (fold_eqmod RotatorAngle x) as [j Hj]; rewrite Hj; clear Hj
  end.
  destruct (m_flippedMount s); cbn [xorb].
  - apply (eqmod360_shift _ _ (j + l + k)). rewrite !plus_IZR. lra.
  - apply (eqmod360_shift _ _ (j + l + k)). rewrite !plus_IZR. lra.
Qed.

Lemma calcOffsetAngle_calcCameraAngle_witness :
  -180 < m_Offset (set_m_flippedMount true (set_m_Offset 25 state0)) <= 180
  /\ evalM (PA <- calcCameraAngle 300 false ;; calcOffsetAngle 300 PA)
           (set_m_flippedMount true (set_m_Offset 25 state0)) = 25.
Proof.
  assert (H : -180 < m_Offset (set_m_flippedMount true (set_m_Offset 25 state0)) <= 180)
    by (cbn; lra).
  split; [exact H |].
  exact (calcOffsetAngle_calcCameraAngle
           (set_m_flippedMount true (set_m_Offset 25 state0)) 300 H).
Defined.

End RotatorCompose.

(** ** RotatorUtils: pier side, persistence and differences *)

Section RotatorState.

Import Mount RotatorUtils.

Lemma pierSideChanged_run (s : State) (Side : PierSide) :
  pierSideChanged Side s =
  (Side, set_m_flippedMount (negb (PierSide_eqb Side (m_CalPierside s))) s).
Proof. reflexivity. Qed.

Lemma set_m_flippedMount_same (s : State) : set_m_flippedMount (m_flippedMount s) s = s.
Proof. destruct s; reflexivity. Qed.

(** Turning the flip flag over moves the unnormalised camera angle by a
    half turn, up to whole turns. *)
Lemma cameraAngle_unnormalised_flip (s : State) (RotatorAngle : R) (flippedImage : bool) :
  eqmod360
    (cameraAngle_unnormalised (set_m_flippedMount (negb (m_flippedMount s)) s)
                              RotatorAngle flippedImage)
    (cameraAngle_unnormalised s RotatorAngle flippedImage + 180).
Proof.
  destruct (cameraAngle_unnormalised_eqmod
              (set_m_flippedMount (negb (m_flippedMount s)) s) RotatorAngle flippedImage)
    as [k Hk].
  destruct (cameraAngle_unnormalised_eqmod s RotatorAngle flippedImage) as [l Hl].
  rewrite Hk, Hl. cbn [m_flippedMount m_Offset set_m_flippedMount].
  destruct (m_flippedMount s), flippedImage; cbn [negb xorb].
  - apply (eqmod360_shift _ _ (k - l)). rewrite minus_IZR. lra.
  - apply (eqmod360_shift _ _ (k - l - 1)). rewrite !minus_IZR. lra.
  - apply (eqmod360_shift _ _ (k - l - 1)). rewrite !minus_IZR. lra.
  - apply (eqmod360_shift _ _ (k - l)). rewrite minus_IZR. lra.
Qed.

(** A pier-side notification that leaves the mount on the same side of
    the calibration side as before leaves every camera angle as it was;
    one that moves it to the other side turns every camera angle by 180
    degrees (modulo 360), whatever the rotator angle, the offset and the
    image flag. *)
Theorem pierSideChanged_calcCameraAngle
    (s : State) (Side : PierSide) (RotatorAngle : R) (flippedImage : bool) :
  let before := evalM (calcCameraAngle RotatorAngle flippedImage) s in
  let after := evalM (pierSideChanged Side ;; calcCameraAngle RotatorAngle flippedImage) s in
  (negb (PierSide_eqb Side (m_CalPierside s)) = m_flippedMount s -> after = before)
  /\ (negb (PierSide_eqb Side (m_CalPierside s)) <> m_flippedMount s ->
      eqmod360 after (before + 180) /\ -180 < after <= 180).
Proof.
  intros before after. subst before after.
  unfold evalM, bind. rewrite pierSideChanged_run, !calcCameraAngle_run. cbn [fst].
  split.
  - intros ->. now rewrite set_m_flippedMount_same.
  - intros Hne.
    assert (E : negb (PierSide_eqb Side (m_CalPierside s)) = negb (m_flippedMount s)).
    { destruct (PierSide_eqb Side (m_CalPierside s)), (m_flippedMount s);
        cbn in *; congruence. }
    rewrite E. split; [| apply rangePA_bounds].
    eapply eqmod360_trans; [apply rangePA_eqmod |].
    eapply eqmod360_trans; [apply cameraAngle_unnormalised_flip |].
    apply eqmod360_plus, eqmod360_sym, rangePA_eqmod.
Qed.

Lemma pierSideChanged_calcCameraAngle_witness :
  negb (PierSide_eqb PIER_EAST (m_CalPierside state0)) <> m_flippedMount state0
  /\ eqmod360 (evalM (pierSideChanged PIER_EAST ;; calcCameraAngle 30 false) state0)
              (evalM (calcCameraAngle 30 false) state0 + 180).
Proof.
  assert (H : negb (PierSide_eqb PIER_EAST (m_CalPierside state0)) <> m_flippedMount state0)
    by (cbn; discriminate).
  split; [exact H |].
  exact (proj1 (proj2 (pierSideChanged_calcCameraAngle state0 PIER_EAST 30 false) H)).
Defined.

(** When the calibration side, the stored image side and the side the
    mount reports are all known, [checkImageFlip] after the notification
    answers whether the image was taken on the other side than the one
    the mount is on now. *)
Theorem pierSideChanged_checkImageFlip (s : State) (Side : PierSide) :
  m_CalPierside s <> PIER_UNKNOWN ->
  m_ImgPierside s <> PIER_UNKNOWN ->
  Side <> PIER_UNKNOWN ->
  evalM (pierSideChanged Side ;; checkImageFlip) s
  = negb (PierSide_eqb (m_ImgPierside s) Side).
Proof.
  intros Hcal Himg Hside. unfold evalM, bind.
  rewrite pierSideChanged_run, checkImageFlip_run.
  cbn [fst m_ImgPierside m_CalPierside m_flippedMount set_m_flippedMount].
  destruct (m_CalPierside s), (m_ImgPierside s), Side;
    try reflexivity; congruence.
Qed.

Lemma pierSideChanged_checkImageFlip_witness :
  evalM (pierSideChanged PIER_EAST ;; checkImageFlip)
        (set_m_ImgPierside PIER_WEST state0) = true.
Proof.
  apply (pierSideChanged_checkImageFlip (set_m_ImgPierside PIER_WEST state0) PIER_EAST);
    cbn; discriminate.
Defined.

(** [updateOffset] stores the offset and persists it, so that a later
    [initRotatorUtils] finds it again; [initRotatorUtils] takes the offset
    from the persisted option (an offset that was not persisted is lost),
    takes the mount of the train, and leaves the flip flag and both pier
    sides as they were: it does not look at the mount's present side. *)
Theorem updateOffset_initRotatorUtils (s : State) (Angle : R) (train : String.string) :
  let s1 := execM (updateOffset Angle ;; initRotatorUtils train) s in
  let s2 := execM (initRotatorUtils train) s in
  (m_Offset s1 = Angle /\ Options_pAOffset s1 = Angle)
  /\ (m_Offset s2 = Options_pAOffset s /\ Options_pAOffset s2 = Options_pAOffset s)
  /\ (m_Mount s2 = OpticalTrainManager_getMount s train
      /\ evalM (initRotatorUtils train ;; getMountPierside) s
         = option_map pierSide (OpticalTrainManager_getMount s train))
  /\ (m_flippedMount s2 = m_flippedMount s
      /\ m_CalPierside s2 = m_CalPierside s
      /\ m_ImgPierside s2 = m_ImgPierside s)
  /\ (forall RotatorAngle : R,
         evalM (calcCameraAngle RotatorAngle false) s1
         = evalM (calcCameraAngle RotatorAngle false) (execM (updateOffset Angle) s)).
Proof.
  intros s1 s2. subst s1 s2.
  repeat split.
Qed.

(** [DiffPA] is symmetric about the half turn, [DiffPA (360 - diff) =
    DiffPA diff], and its result lies in [0, 180] exactly when the
    argument lies in [0, 360]: outside that range the result is
    negative. *)
Theorem DiffPA_range (s : State) (diff : R) :
  evalM (DiffPA (360 - diff)) s = evalM (DiffPA diff) s
  /\ (0 <= evalM (DiffPA diff) s <= 180 <-> 0 <= diff <= 360)
  /\ (~ 0 <= diff <= 360 -> evalM (DiffPA diff) s < 0).
Proof.
  unfold evalM. rewrite !DiffPA_run. cbn [fst].
  unfold Rgtb.
  destruct (Rlt_dec 180 diff), (Rlt_dec 180 (360 - diff)); repeat split; intros; lra.
Qed.

Lemma DiffPA_range_witness :
  ~ 0 <= 400 <= 360 /\ evalM (DiffPA 400) state0 < 0.
Proof.
  assert (H : ~ 0 <= 400 <= 360) by lra.
  split; [exact H |].
  exact (proj2 (proj2 (DiffPA_range state0 400)) H).
Defined.

End RotatorState.

(** ** PoleAxis: geometry of the plane normal *)

Section NormalGeometry.

Import PoleAxis.

(** [normal] is perpendicular to the plane through the three points: its
    dot products with [v2 - v1] and [v3 - v2] vanish, so the three points
    have the same component along it.  (For collinear points the zero
    vector satisfies this as well.) *)
Theorem normal_perpendicular (v1 v2 v3 : V3) :
  (V3_dot (normal v1 v2 v3) (V3_sub v2 v1) = 0
   /\ V3_dot (normal v1 v2 v3) (V3_sub v3 v2) = 0)
  /\ (V3_dot (normal v1 v2 v3) v1 = V3_dot (normal v1 v2 v3) v2
      /\ V3_dot (normal v1 v2 v3) v2 = V3_dot (normal v1 v2 v3) v3).
Proof.
  rewrite normal_cross. cbv zeta.
  destruct (Reqb (normSq (V3_cross (V3_sub v2 v1) (V3_sub v3 v2))) 0).
  - unfold V3_dot, V3_default, V3_sub. cbn [X Y Z]. repeat split; ring.
  - unfold V3_dot, V3_cross, V3_sub. cbn [X Y Z]. unfold Rdiv. repeat split; ring.
Qed.

(** Taking the three points in a rotated order ([v2], [v3], [v1]) gives
    the same normal: with the reversal of the order, which negates it,
    the result depends only on the sense in which the points are taken. *)
Theorem normal_cyclic (v1 v2 v3 : V3) :
  normal v2 v3 v1 = normal v1 v2 v3 /\ normal v3 v1 v2 = normal v1 v2 v3.
Proof.
  rewrite !normal_cross. cbv zeta.
  assert (E1 : V3_cross (V3_sub v3 v2) (V3_sub v1 v3)
               = V3_cross (V3_sub v2 v1) (V3_sub v3 v2)).
  { unfold V3_cross, V3_sub. cbn [X Y Z]. f_equal; ring. }
  assert (E2 : V3_cross (V3_sub v1 v3) (V3_sub v2 v1)
               = V3_cross (V3_sub v2 v1) (V3_sub v3 v2)).
  { unfold V3_cross, V3_sub. cbn [X Y Z]. f_equal; ring. }
  rewrite E1, E2. split; reflexivity.
Qed.

Lemma sqrt_scaled_sq (k L : R) : 0 <= L -> sqrt (k * k * (k * k) * L) = k * k * sqrt L.
Proof.
  intros HL.
  rewrite sqrt_mult by nra.
  rewrite sqrt_square by nra. reflexivity.
Qed.

(** [normal] does not change when the three points are moved by a common
    vector, nor when they are scaled by a common factor other than 0: it
    depends on the plane's direction only, not on where the sphere sits
    or how large it is. *)
Theorem normal_translate_scale (v1 v2 v3 t : V3) (k : R) :
  normal (V3_add v1 t) (V3_add v2 t) (V3_add v3 t) = normal v1 v2 v3
  /\ (k <> 0 ->
      normal (V3_scale k v1) (V3_scale k v2) (V3_scale k v3) = normal v1 v2 v3).
Proof.
  split.
  - rewrite !normal_cross. cbv zeta.
    assert (E : V3_cross (V3_sub (V3_add v2 t) (V3_add v1 t))
                         (V3_sub (V3_add v3 t) (V3_add v2 t))
                = V3_cross (V3_sub v2 v1) (V3_sub v3 v2)).
    { unfold V3_cross, V3_sub, V3_add. cbn [X Y Z]. f_equal; ring. }
    now rewrite E.
  - intros Hk. rewrite !normal_cross. cbv zeta.
    set (c := V3_cross (V3_sub v2 v1) (V3_sub v3 v2)).
    assert (E : V3_cross (V3_sub (V3_scale k v2) (V3_scale k v1))
                         (V3_sub (V3_scale k v3) (V3_scale k v2))
                = V3_scale (k * k) c).
    { unfold c, V3_cross, V3_sub, V3_scale. cbn [X Y Z]. f_equal; ring. }
    rewrite E.
    assert (En : normSq (V3_scale (k * k) c) = k * k * (k * k) * normSq c).
    { unfold normSq, V3_scale. cbn [X Y Z]. ring. }
    rewrite En.
    assert (Hk2 : 0 < k * k) by nra.
    pose proof (normSq_nonneg c) as Hc.
    destruct (Req_dec_T (normSq c) 0) as [Hz | Hnz].
    + rewrite Hz, Rmult_0_r, !Reqb_true by reflexivity. reflexivity.
    + rewrite (Reqb_false (normSq c)) by exact Hnz.
      assert (Hpos : 0 < k * k * (k * k) * normSq c).
      { apply Rmult_lt_0_compat; [apply Rmult_lt_0_compat; assumption | lra]. }
      rewrite Reqb_false by lra.
      rewrite sqrt_scaled_sq by exact Hc.
      assert (Hs : 0 < sqrt (normSq c)) by (apply sqrt_lt_R0; lra).
      unfold V3_scale. cbn [X Y Z]. f_equal; field; lra.
Qed.

Lemma normal_translate_scale_witness :
  normal (V3_scale (-3) (mkV3 1 0 0)) (V3_scale (-3) (mkV3 0 1 0))
         (V3_scale (-3) (mkV3 0 0 1))
  = normal (mkV3 1 0 0) (mkV3 0 1 0) (mkV3 0 0 1).
Proof.
  apply (normal_translate_scale (mkV3 1 0 0) (mkV3 0 1 0) (mkV3 0 0 1) V3_default (-3)).
  lra.
Defined.

(** Three points with the same [z]: the normal is the zero vector or one
    of the two poles, as the planar cross product of the differences
    decides. *)
Lemma normal_same_z (v1 v2 v3 : V3) :
  Z v1 = Z v2 -> Z v2 = Z v3 ->
  let t := (X v2 - X v1) * (Y v3 - Y v2) - (Y v2 - Y v1) * (X v3 - X v2) in
  (0 < t -> normal v1 v2 v3 = mkV3 0 0 1)
  /\ (t < 0 -> normal v1 v2 v3 = mkV3 0 0 (-1))
  /\ (t = 0 -> normal v1 v2 v3 = V3_default).
Proof.
  intros H12 H23 t.
  assert (Ec : V3_cross (V3_sub v2 v1) (V3_sub v3 v2) = mkV3 0 0 t).
  { unfold V3_cross, V3_sub, t. cbn [X Y Z]. rewrite H12, H23. f_equal; ring. }
  split; [| split]; intros Ht.
  - rewrite (normal_scaled _ _ _ t); rewrite ?Ec;
      [ | exact Ht | unfold normSq; cbn [X Y Z]; ring ].
    cbn [X Y Z]. f_equal; field; lra.
  - rewrite (normal_scaled _ _ _ (- t)); rewrite ?Ec;
      [ | lra | unfold normSq; cbn [X Y Z]; ring ].
    cbn [X Y Z]. f_equal; field; lra.
  - apply normal_collinear. unfold collinear. rewrite Ec, Ht. reflexivity.
Qed.

(** For three sky points of one declination [poleAxis] returns a pole
    exactly, whatever the rounding to single precision does: (0, 0, 1)
    when the three directions turn counter-clockwise seen from the north,
    (0, 0, -1) when they turn clockwise, and the zero vector when they do
    not turn (the planar cross product of the differences is 0). *)
Theorem poleAxis_same_dec (to_float : R -> R) (p1 p2 p3 : SkyPoint.SkyPoint) :
  SkyPoint.dec p1 = SkyPoint.dec p2 ->
  SkyPoint.dec p2 = SkyPoint.dec p3 ->
  let v1 := dirCos_SkyPoint to_float p1 in
  let v2 := dirCos_SkyPoint to_float p2 in
  let v3 := dirCos_SkyPoint to_float p3 in
  let t := (X v2 - X v1) * (Y v3 - Y v2) - (Y v2 - Y v1) * (X v3 - X v2) in
  (0 < t -> poleAxis to_float p1 p2 p3 = mkV3 0 0 1)
  /\ (t < 0 -> poleAxis to_float p1 p2 p3 = mkV3 0 0 (-1))
  /\ (t = 0 -> poleAxis to_float p1 p2 p3 = V3_default)
  /\ (poleAxis to_float p1 p2 p3 = mkV3 0 0 1
      \/ poleAxis to_float p1 p2 p3 = mkV3 0 0 (-1)
      \/ poleAxis to_float p1 p2 p3 = V3_default).
Proof.
  intros H12 H23 v1 v2 v3 t.
  assert (Z12 : Z v1 = Z v2).
  { unfold v1, v2, dirCos_SkyPoint, dirCos. cbn [Z]. now rewrite H12. }
  assert (Z23 : Z v2 = Z v3).
  { unfold v2, v3, dirCos_SkyPoint, dirCos. cbn [Z]. now rewrite H23. }
  destruct (normal_same_z v1 v2 v3 Z12 Z23) as (Hpos & Hneg & Hzero).
  fold t in Hpos, Hneg, Hzero.
  change (poleAxis to_float p1 p2 p3) with (normal v1 v2 v3).
  split; [exact Hpos | split; [exact Hneg | split; [exact Hzero |]]].
  destruct (Rtotal_order 0 t) as [H | [H | H]].
  - left. now apply Hpos.
  - right. right. now apply Hzero.
  - right. left. now apply Hneg.
Qed.

Lemma poleAxis_same_dec_witness :
  poleAxis (fun x : R => x)
           (SkyPoint.mkSkyPoint (Dms.mkdms 180) (Dms.mkdms 0))
           (SkyPoint.mkSkyPoint (Dms.mkdms 90) (Dms.mkdms 0))
           (SkyPoint.mkSkyPoint (Dms.mkdms 0) (Dms.mkdms 0))
  = mkV3 0 0 (-1).
Proof.
  destruct (dirCos_equator (fun x : R => x) eq_refl eq_refl eq_refl) as (E0 & E90 & E180).
  refine (proj1 (proj2
            (poleAxis_same_dec (fun x : R => x)
               (SkyPoint.mkSkyPoint (Dms.mkdms 180) (Dms.mkdms 0))
               (SkyPoint.mkSkyPoint (Dms.mkdms 90) (Dms.mkdms 0))
               (SkyPoint.mkSkyPoint (Dms.mkdms 0) (Dms.mkdms 0))
               eq_refl eq_refl)) _).
  cbv zeta. rewrite E0, E90, E180. cbn [X Y]. lra.
Defined.

End NormalGeometry.

(** ** PoleAxis: ranges of the angles and the way back *)

Section AngleRanges.

Import PoleAxis.







(** The exact direction of two angles is a unit vector. *)
Lemma direction_unit (p s : Dms.dms) :
  (Dms.cos s * Dms.cos p) * (Dms.cos s * Dms.cos p)
  + (Dms.cos s * Dms.sin p) * (Dms.cos s * Dms.sin p)
  + Dms.sin s * Dms.sin s = 1.
Proof.
  unfold Dms.cos, Dms.sin.
  pose proof (sin2_cos2 (Dms.radians p)) as Hp.
  pose proof (sin2_cos2 (Dms.radians s)) as Hs.
  unfold Rsqr in Hp, Hs.
  set (cp := cos (Dms.radians p)) in *. set (sp := sin (Dms.radians p)) in *.
  set (cs := cos (Dms.radians s)) in *. set (ss := sin (Dms.radians s)) in *.
  replace (cs * cp * (cs * cp) + cs * sp * (cs * sp) + ss * ss)
    with (cs * cs * (sp * sp + cp * cp) + ss * ss) by ring.
  rewrite Hp. lra.
Qed.

Lemma sq_le_1 (a b c : R) : a * a + b * b + c * c = 1 -> -1 <= a <= 1.
Proof. intros H. split; nra. Qed.

Lemma near_sq (c c' eps : R) :
  -1 <= c <= 1 -> Rabs (c' - c) <= eps ->
  Rabs (c' * c' - c * c) <= eps * (2 + eps).
Proof.
  intros Hc Hd.
  assert (He : 0 <= eps) by (pose proof (Rabs_pos (c' - c)); lra).
  replace (c' * c' - c * c) with ((c' - c) * (c' - c + 2 * c)) by ring.
  rewrite Rabs_mult.
  assert (H2 : Rabs (c' - c + 2 * c) <= eps + 2).
  { eapply Rle_trans; [apply Rabs_triang |].
    assert (Rabs (2 * c) <= 2) by (apply Rabs_le; lra). lra. }
  pose proof (Rabs_pos (c' - c)). pose proof (Rabs_pos (c' - c + 2 * c)).
  nra.
Qed.

(** [dirCos] returns a unit vector up to the rounding to single
    precision: when the rounding moves no number of [-1, 1] by more than
    [eps], the squared length of the result is within [3 eps (2 + eps)]
    of 1, for all angles. *)
Theorem dirCos_unit (to_float : R -> R) (eps : R) (p s : Dms.dms) :
  (forall x : R, -1 <= x <= 1 -> Rabs (to_float x - x) <= eps) ->
  Rabs (normSq (dirCos to_float p s) - 1) <= 3 * (eps * (2 + eps)).
Proof.
  intros Hround.
  pose proof (direction_unit p s) as Hu.
  set (a := Dms.cos s * Dms.cos p) in *.
  set (b := Dms.cos s * Dms.sin p) in *.
  set (c := Dms.sin s) in *.
  assert (Ha : -1 <= a <= 1) by (apply (sq_le_1 a b c); exact Hu).
  assert (Hb : -1 <= b <= 1) by (apply (sq_le_1 b a c); lra).
  assert (Hc : -1 <= c <= 1) by (apply (sq_le_1 c a b); lra).
  pose proof (near_sq a (to_float a) eps Ha (Hround a Ha)) as Na.
  pose proof (near_sq b (to_float b) eps Hb (Hround b Hb)) as Nb.
  pose proof (near_sq c (to_float c) eps Hc (Hround c Hc)) as Nc.
  unfold normSq, dirCos. cbn [X Y Z]. fold a b c.
  replace (to_float a * to_float a + to_float b * to_float b + to_float c * to_float c - 1)
    with ((to_float a * to_float a - a * a) + (to_float b * to_float b - b * b)
          + (to_float c * to_float c - c * c)) by lra.
  eapply Rle_trans; [apply Rabs_triang |].
  eapply Rle_trans; [apply Rplus_le_compat_r, Rabs_triang |].
  lra.
Qed.

Lemma dirCos_unit_witness :
  (forall x : R, -1 <= x <= 1 -> Rabs ((fun y : R => y) x - x) <= 0)
  /\ Rabs (normSq (dirCos (fun y : R => y) (Dms.mkdms 30) (Dms.mkdms 60)) - 1)
     <= 3 * (0 * (2 + 0)).
Proof.
  assert (Hround : forall x : R, -1 <= x <= 1 -> Rabs ((fun y : R => y) x - x) <= 0).
  { intros x _. cbv beta. rewrite Rminus_diag, Rabs_R0. lra. }
  split; [exact Hround |].
  exact (dirCos_unit (fun y : R => y) 0 (Dms.mkdms 30) (Dms.mkdms 60) Hround).
Defined.

End AngleRanges.

(** ** PoleAxis: from angles to a direction and back *)

Section AnglesBack.

Import PoleAxis.







End AnglesBack.

(** ** ToggleAction *)

Section Toggle.

Import ToggleAction.

Lemma shows_state_apply (o : Op) (a : ToggleAction) :
  shows_state a -> shows_state (apply o a).
Proof.
  intros [Ht Hp]. destruct a as [ic tx tt fi oi fc oc ft ot st].
  cbn in Ht, Hp.
  destruct o as [ | | tip | tip]; destruct st, fi, oi; cbn in *; split; auto.
Qed.

Lemma captions_apply (o : Op) (a : ToggleAction) :
  oncap (apply o a) = oncap a /\ offcap (apply o a) = offcap a
  /\ onicon (apply o a) = onicon a /\ officon (apply o a) = officon a.
Proof.
  destruct a as [ic tx tt fi oi fc oc ft ot st].
  destruct o as [ | | tip | tip]; destruct st, fi, oi; cbn; auto.
Qed.

Lemma shows_state_run (ops : list Op) (a : ToggleAction) :
  shows_state a -> shows_state (run ops a).
Proof.
  revert a. induction ops as [| o ops IH]; intros a Ha; cbn [run].
  - exact Ha.
  - apply IH. now apply shows_state_apply.
Qed.

Lemma captions_run (ops : list Op) (a : ToggleAction) :
  oncap (run ops a) = oncap a /\ offcap (run ops a) = offcap a
  /\ onicon (run ops a) = onicon a /\ officon (run ops a) = officon a.
Proof.
  revert a. induction ops as [| o ops IH]; intros a; cbn [run].
  - auto.
  - destruct (IH (apply o a)) as (H1 & H2 & H3 & H4).
    destruct (captions_apply o a) as (G1 & G2 & G3 & G4).
    rewrite H1, H2, H3, H4. auto.
Qed.

(** However an action is built and whatever sequence of [turnOn],
    [turnOff], [setOnToolTip] and [setOffToolTip] follows, it shows the
    text and the tool tip of its state: the "on" caption and tip while it
    is on, the "off" ones while it is off; the captions stay those given
    to the constructor. *)
Theorem toggle_shows_state
    (ontext offtext : String.string) (onpix offpix : QIcon) (ops : list Op) :
  let shows (a : ToggleAction) :=
    text a = (if state a then ontext else offtext)
    /\ toolTip a = (if state a then onTip a else offTip a) in
  shows (run ops (new_with_icons ontext onpix offtext offpix))
  /\ shows (run ops (new_without_icons ontext offtext)).
Proof.
  intros shows. subst shows. cbv beta.
  assert (H1 : shows_state (new_with_icons ontext onpix offtext offpix))
    by (split; reflexivity).
  assert (H2 : shows_state (new_without_icons ontext offtext))
    by (split; reflexivity).
  apply (shows_state_run ops) in H1. apply (shows_state_run ops) in H2.
  destruct H1 as [T1 P1], H2 as [T2 P2].
  destruct (captions_run ops (new_with_icons ontext onpix offtext offpix))
    as (C1 & C2 & _).
  destruct (captions_run ops (new_without_icons ontext offtext)) as (D1 & D2 & _).
  rewrite C1, C2 in T1. rewrite D1, D2 in T2.
  repeat split; assumption.
Qed.

Lemma icon_tracks_apply (o : Op) (a : ToggleAction) :
  isNull (onicon a) = false -> isNull (officon a) = false ->
  icon a = (if state a then onicon a else officon a) ->
  icon (apply o a) = (if state (apply o a) then onicon a else officon a).
Proof.
  intros Hon Hoff Hi. destruct a as [ic tx tt fi oi fc oc ft ot st].
  cbn in Hon, Hoff, Hi.
  destruct o as [ | | tip | tip]; destruct st, fi, oi; cbn in *; congruence.
Qed.

Lemma icon_tracks_run (ops : list Op) (a : ToggleAction) :
  isNull (onicon a) = false -> isNull (officon a) = false ->
  icon a = (if state a then onicon a else officon a) ->
  icon (run ops a) = (if state (run ops a) then onicon a else officon a).
Proof.
  revert a. induction ops as [| o ops IH]; intros a Hon Hoff Hi; cbn [run].
  - exact Hi.
  - destruct (captions_apply o a) as (_ & _ & G3 & G4).
    rewrite <- G3, <- G4. apply IH.
    + now rewrite G3.
    + now rewrite G4.
    + rewrite G3, G4. now apply icon_tracks_apply.
Qed.

Lemma icon_stuck_apply (o : Op) (a : ToggleAction) :
  isNull (onicon a) = true -> icon a = officon a ->
  icon (apply o a) = officon a.
Proof.
  intros Hon Hi. destruct a as [ic tx tt fi oi fc oc ft ot st].
  cbn in Hon, Hi.
  destruct o as [ | | tip | tip]; destruct st, fi, oi; cbn in *; congruence.
Qed.

Lemma icon_stuck_run (ops : list Op) (a : ToggleAction) :
  isNull (onicon a) = true -> icon a = officon a ->
  icon (run ops a) = officon a.
Proof.
  revert a. induction ops as [| o ops IH]; intros a Hon Hi; cbn [run].
  - exact Hi.
  - destruct (captions_apply o a) as (_ & _ & G3 & G4).
    rewrite <- G4. apply IH.
    + now rewrite G3.
    + rewrite G4. now apply icon_stuck_apply.
Qed.

(** The icon.  An action built with two icons that are not null shows,
    after any sequence of calls, the icon of its state.  An action built
    without icons never shows one.  An action whose "on" icon is null but
    whose "off" icon is not keeps the "off" icon from the first [turnOff]
    on, also while it is on again: [turnOn] has no icon to put back. *)
Theorem toggle_icon (ops : list Op) :
  (forall (ontext offtext : String.string) (onpix offpix : QIcon),
      isNull onpix = false -> isNull offpix = false ->
      let a := run ops (new_with_icons ontext onpix offtext offpix) in
      icon a = (if state a then onpix else offpix))
  /\ (forall ontext offtext : String.string,
         icon (run ops (new_without_icons ontext offtext)) = NullIcon)
  /\ (forall a : ToggleAction,
         isNull (onicon a) = true -> isNull (officon a) = false ->
         icon (run ops (turnOff a)) = officon a
         /\ icon (turnOn (turnOff a)) = officon a
         /\ state (turnOn (turnOff a)) = true).
Proof.
  split; [| split].
  - intros ontext offtext onpix offpix Hon Hoff a. subst a.
    apply (icon_tracks_run ops (new_with_icons ontext onpix offtext offpix));
      [exact Hon | exact Hoff | reflexivity].
  - intros ontext offtext.
    apply (icon_stuck_run ops (new_without_icons ontext offtext)); reflexivity.
  - intros a Hon Hoff.
    assert (E : icon (turnOff a) = officon (turnOff a)).
    { destruct a as [ic tx tt fi oi fc oc ft ot st]. cbn in Hon, Hoff.
      destruct fi; [discriminate | reflexivity]. }
    assert (Eo : officon (turnOff a) = officon a).
    { apply (captions_apply Op_turnOff a). }
    assert (En : onicon (turnOff a) = onicon a).
    { apply (captions_apply Op_turnOff a). }
    split; [| split].
    + rewrite <- Eo. apply icon_stuck_run; [now rewrite En | exact E].
    + rewrite <- Eo.
      apply (icon_stuck_run (cons Op_turnOn nil)); [now rewrite En | exact E].
    + destruct a as [ic tx tt fi oi fc oc ft ot st]. cbn in Hon.
      destruct fi, oi; reflexivity.
Qed.

Lemma toggle_icon_witness :
  isNull NullIcon = true /\ isNull (Pixmap 7) = false
  /\ icon (run (cons Op_turnOn (cons (Op_setOnToolTip String.EmptyString) nil))
               (turnOff (new_with_icons String.EmptyString NullIcon
                                        String.EmptyString (Pixmap 7))))
     = Pixmap 7.
Proof.
  split; [reflexivity | split; [reflexivity |]].
  exact (proj1 (proj2 (proj2
           (toggle_icon (cons Op_turnOn (cons (Op_setOnToolTip String.EmptyString) nil))))
           (new_with_icons String.EmptyString NullIcon String.EmptyString (Pixmap 7))
           eq_refl eq_refl)).
Defined.

Lemma onTip_kept_apply (o : Op) (a : ToggleAction) (tip : String.string) :
  (forall tip' : String.string, o <> Op_setOnToolTip tip') ->
  onTip a = tip /\ (state a = true -> toolTip a = tip) ->
  onTip (apply o a) = tip /\ (state (apply o a) = true -> toolTip (apply o a) = tip).
Proof.
  intros Hno [Ht Hs]. destruct a as [ic tx tt fi oi fc oc ft ot st].
  cbn in Ht, Hs.
  destruct o as [ | | tip' | tip'].
  - destruct fi; cbn; split; [exact Ht | discriminate | exact Ht | discriminate].
  - destruct oi; cbn; split; auto.
  - exfalso. now apply (Hno tip').
  - destruct st; cbn; split; auto; discriminate.
Qed.

(** A tool tip given with [setOnToolTip] is remembered: after any
    sequence of [turnOn], [turnOff] and [setOffToolTip] the action shows
    it whenever it is on, also when it was off at the time the tip was
    given.  While the action is off, [setOnToolTip] leaves the tip shown
    untouched. *)
Theorem setOnToolTip_remembered
    (a : ToggleAction) (tip : String.string) (ops : list Op) :
  (forall tip' : String.string, ~ List.In (Op_setOnToolTip tip') ops) ->
  (state (run ops (setOnToolTip tip a)) = true ->
   toolTip (run ops (setOnToolTip tip a)) = tip)
  /\ (state a = false -> toolTip (setOnToolTip tip a) = toolTip a).
Proof.
  intros Hno. split.
  - assert (H0 : onTip (setOnToolTip tip a) = tip
                 /\ (state (setOnToolTip tip a) = true
                     -> toolTip (setOnToolTip tip a) = tip)).
    { destruct a as [ic tx tt fi oi fc oc ft ot st]. destruct st; cbn; split; auto.
      discriminate. }
    revert H0 Hno. generalize (setOnToolTip tip a). clear a.
    induction ops as [| o ops IH]; intros a H0 Hno; cbn [run].
    + apply H0.
    + apply IH.
      * apply onTip_kept_apply; [| exact H0].
        intros tip' ->. apply (Hno tip'). now left.
      * intros tip' Hin. apply (Hno tip'). now right.
  - intros Hs. destruct a as [ic tx tt fi oi fc oc ft ot st]. cbn in Hs. subst st.
    reflexivity.
Qed.

Lemma setOnToolTip_remembered_witness :
  (forall tip' : String.string,
      ~ List.In (Op_setOnToolTip tip') (cons Op_turnOff (cons Op_turnOn nil)))
  /\ toolTip (run (cons Op_turnOff (cons Op_turnOn nil))
                  (setOnToolTip (String.String (Ascii.ascii_of_nat 116) String.EmptyString)
                     (turnOff (new_without_icons String.EmptyString String.EmptyString))))
     = String.String (Ascii.ascii_of_nat 116) String.EmptyString.
Proof.
  assert (H : forall tip' : String.string,
             ~ List.In (Op_setOnToolTip tip') (cons Op_turnOff (cons Op_turnOn nil))).
  { intros tip' [E | [E | E]]; [discriminate E | discriminate E | exact E]. }
  split; [exact H |].
  exact (proj1 (setOnToolTip_remembered
                  (turnOff (new_without_icons String.EmptyString String.EmptyString))
                  (String.String (Ascii.ascii_of_nat 116) String.EmptyString)
                  (cons Op_turnOff (cons Op_turnOn nil)) H) eq_refl).
Defined.

(** [turnOn] and [turnOff] are idempotent.  The last of two opposite
    calls decides everything the action shows when it has an icon to
    show ([turnOn] after [turnOff] is [turnOn] when the "on" icon is not
    null or the "off" icon is null, and the other way round); only the
    icon can differ otherwise. *)
Theorem toggle_last_wins (a : ToggleAction) :
  (turnOn (turnOn a) = turnOn a /\ turnOff (turnOff a) = turnOff a)
  /\ (isNull (onicon a) = false \/ isNull (officon a) = true ->
      turnOn (turnOff a) = turnOn a)
  /\ (isNull (officon a) = false \/ isNull (onicon a) = true ->
      turnOff (turnOn a) = turnOff a)
  /\ setIcon (icon a) (turnOn (turnOff a)) = setIcon (icon a) (turnOn a).
Proof.
  destruct a as [ic tx tt fi oi fc oc ft ot st].
  repeat split.
  - destruct oi; reflexivity.
  - destruct fi; reflexivity.
  - cbn. intros [H | H]; destruct fi, oi; try reflexivity; discriminate.
  - cbn. intros [H | H]; destruct fi, oi; try reflexivity; discriminate.
  - destruct fi, oi; reflexivity.
Qed.

Lemma toggle_last_wins_witness :
  turnOn (turnOff (new_with_icons String.EmptyString (Pixmap 1)
                                  String.EmptyString (Pixmap 2)))
  = turnOn (new_with_icons String.EmptyString (Pixmap 1)
                           String.EmptyString (Pixmap 2)).
Proof.
  apply (proj1 (proj2 (toggle_last_wins
           (new_with_icons String.EmptyString (Pixmap 1) String.EmptyString (Pixmap 2))))).
  left. reflexivity.
Defined.

End Toggle.
